(** * gnet: the per-connection I/O engine (connection_unix.go, io_linux.go)

    A shallow embedding of the connection methods of [conn] and of the
    scatter/gather adapter [SendMsgs], with the properties the design
    document states about them.

    Layout:
    - [ringbuffer]: the inbound ring (package pkg/ringbuffer);
    - [mixedbuffer]: the outbound buffer (package pkg/mixedbuffer);
    - [gnet]: the connection, the environment it runs in (codec, kernel,
      poller, handler hooks) and its methods;
    - [io]: the sendmsg adapter;
    - the theorems. *)

From Stdlib Require Import ZArith Lia.
From stdpp Require Import prelude strings.

Local Open Scope Z_scope.

(** Go's [[]byte], without the nil/empty distinction (kept apart only where
    the code tests a slice against nil). *)
Abbreviation bytes := (list Byte.byte).

#[global] Instance byte_inhabited : Inhabited Byte.byte := populate Byte.x00.

(** Go's [s[lo:hi]] on a slice, for [0 <= lo <= hi <= len(s)]. *)
Definition slice (s : bytes) (lo hi : Z) : bytes :=
  take (Z.to_nat (hi - lo)) (drop (Z.to_nat lo) s).

(* ------------------------------------------------------------------ *)
(** ** The inbound ring buffer *)

Module ringbuffer.

(** Modelled from the spec: package pkg/ringbuffer is not among the
    sources.  "Circular array with r (read index), w (write index), and
    capacity C.  Length = w - r modulo 2C using a virtual-index scheme so
    empty vs full are distinguishable without a separate flag." *)
Record RingBuffer := mkRing {
  buf : bytes;   (* the circular array, len(buf) = size *)
  size : Z;      (* capacity C *)
  r : Z;         (* virtual read index, in [0, 2C) *)
  w : Z          (* virtual write index, in [0, 2C) *)
}.

(** Modelled from the spec: [Length()] of the absent ring buffer,
    "w - r modulo 2C". *)
Definition Length (rb : RingBuffer) : Z :=
  (w rb - r rb) mod (2 * size rb).

(** Modelled from the spec: [IsEmpty()] of the absent ring buffer. *)
Definition IsEmpty (rb : RingBuffer) : bool := Length rb =? 0.

(** Physical position of the read index in the array. *)
Definition rpos (rb : RingBuffer) : Z := r rb mod size rb.

(** Modelled from the spec: [Peek(n)] of the absent ring buffer.
    "Returns up to n bytes as two contiguous slices; tail is empty when no
    wrap occurred.  Must not mutate state.  If n <= 0 or n > length,
    returns all available."  The tail is [None] (Go's nil) when the
    requested prefix does not wrap. *)
Definition Peek (rb : RingBuffer) (n : Z) : bytes * option bytes :=
  let m := if (n <=? 0) || (Length rb <? n) then Length rb else n in
  let start := rpos rb in
  if start + m <=? size rb
  then (slice (buf rb) start (start + m), None)
  else (slice (buf rb) start (size rb),
        Some (slice (buf rb) 0 (start + m - size rb))).

(** Modelled from the spec: [PeekAll()], "equivalent to Peek(length)". *)
Definition PeekAll (rb : RingBuffer) : bytes * option bytes :=
  Peek rb (Length rb).

(** Modelled from the spec: [Discard(n)] of the absent ring buffer,
    "advances the read index by min(n, length); returns the number
    discarded". *)
Definition Discard (rb : RingBuffer) (n : Z) : RingBuffer * Z :=
  let d := Z.min n (Length rb) in
  (mkRing (buf rb) (size rb) ((r rb + d) mod (2 * size rb)) (w rb), d).

(** Modelled from the spec: [Reset()], "clears without freeing". *)
Definition Reset (rb : RingBuffer) : RingBuffer :=
  mkRing (buf rb) (size rb) 0 0.

(** Modelled from the spec: [ByteBuffer()] of the absent ring buffer is
    what fills the transit buffer, which "holds a linear copy of bytes
    peeked across a ring wrap". *)
Definition ByteBuffer (rb : RingBuffer) : bytes :=
  let '(head, tail) := PeekAll rb in head ++ default [] tail.

(** ringbuffer.EmptyRingBuffer: a ring of capacity zero. *)
Definition EmptyRingBuffer : RingBuffer := mkRing [] 0 0 0.

(** The buffered bytes in FIFO order: the window of [Length] cells that
    starts at the read position, read around the end of the array. *)
Definition contents (rb : RingBuffer) : bytes :=
  take (Z.to_nat (Length rb)) (drop (Z.to_nat (rpos rb)) (buf rb ++ buf rb)).

(** Well-formed rings: the representation invariant of the data model. *)
Record wf (rb : RingBuffer) : Prop := mkWf {
  wf_size : 0 < size rb;
  wf_buf : Z.of_nat (length (buf rb)) = size rb;
  wf_r : 0 <= r rb < 2 * size rb;
  wf_w : 0 <= w rb < 2 * size rb;
  wf_len : Length rb <= size rb
}.

(** An executable check of [wf], for concrete rings. *)
Definition wfb (rb : RingBuffer) : bool :=
  (0 <? size rb) && (Z.of_nat (length (buf rb)) =? size rb)
  && (0 <=? r rb) && (r rb <? 2 * size rb)
  && (0 <=? w rb) && (w rb <? 2 * size rb)
  && (Length rb <=? size rb).

End ringbuffer.

Import ringbuffer.

(* ------------------------------------------------------------------ *)
(** ** The transit buffer and the outbound buffer *)

Module bytebuffer.

(** Modelled from the spec: package pkg/pool/bytebuffer is not among the
    sources.  The transit buffer is the "linearization scratch": a byte
    slice [B] that [Reset] truncates to length zero and [Write] appends
    to; [Get] takes an empty one from the pool. *)
Definition ByteBuffer := bytes.
Definition Get : ByteBuffer := [].
Definition Reset (b : ByteBuffer) : ByteBuffer := [].
Definition Write (b : ByteBuffer) (p : bytes) : ByteBuffer := b ++ p.

End bytebuffer.

Module mixedbuffer.

(** Modelled from the spec: package pkg/mixedbuffer is not among the
    sources.  "A ring of bounded capacity plus an ordered list of owned
    byte segments."  The ring is kept as the bytes it holds, oldest first,
    with its capacity. *)
Record Buffer := mkBuffer {
  ringBytes : bytes;
  ringCap : Z;
  segments : list bytes
}.

(** Modelled from the spec: [New()] of the absent outbound buffer. *)
Definition New (cap : Z) : Buffer := mkBuffer [] cap [].

(** Modelled from the spec: [IsEmpty()], "both ring and list must be empty
    for the buffer to be empty". *)
Definition IsEmpty (b : Buffer) : bool :=
  match ringBytes b, segments b with
  | [], [] => true
  | _, _ => false
  end.

(** Modelled from the spec: [Write(bytes)], "if the list is empty and the
    bytes fit in the ring, append to ring; otherwise append to list". *)
Definition Write (b : Buffer) (p : bytes) : Buffer :=
  match segments b with
  | [] =>
      if Z.of_nat (length (ringBytes b)) + Z.of_nat (length p) <=? ringCap b
      then mkBuffer (ringBytes b ++ p) (ringCap b) []
      else mkBuffer (ringBytes b) (ringCap b) [p]
  | _ :: _ => mkBuffer (ringBytes b) (ringCap b) (segments b ++ [p])
  end.

(** Modelled from the spec: [Release()] of the absent outbound buffer;
    the pooled storage goes back and nothing stays buffered. *)
Definition Release (b : Buffer) : Buffer := mkBuffer [] (ringCap b) [].

(** The buffered bytes in FIFO order: "drain the ring first, then drain
    the list in order". *)
Definition contents (b : Buffer) : bytes :=
  ringBytes b ++ concat (segments b).

End mixedbuffer.

(* ------------------------------------------------------------------ *)
(** ** Errors *)

(** Go [error] values that reach the connection: kernel error numbers
    ([unix.Errno]), [os.SyscallError] wrappers and opaque errors of the
    codec, the poller and the handler. *)
Inductive error :=
| Errno (e : Z)
| SyscallError (Syscall : string) (Err : error)
| OpaqueError (what : string).

#[global] Instance error_eq_dec : EqDecision error.
Proof. solve_decision. Defined.

(** unix.EAGAIN (11 on Linux). *)
Definition EAGAIN : error := Errno 11.

(** os.NewSyscallError on a non-nil error. *)
Definition NewSyscallError (syscall : string) (err : error) : error :=
  SyscallError syscall err.

(* ------------------------------------------------------------------ *)
(** ** The connection *)

Module gnet.

(** [type conn struct]; the references to the loop, the codec and the
    poll attachment are the environment [Env] below. *)
Record conn := mkConn {
  fd : Z;
  sa : option string;
  ctx : option Z;
  opened : bool;
  localAddr : option string;
  remoteAddr : option string;
  inboundBuffer : RingBuffer;
  transitBuffer : option bytebuffer.ByteBuffer;
  outboundBuffer : mixedbuffer.Buffer
}.

Definition with_inbound (c : conn) (rb : RingBuffer) : conn :=
  mkConn (fd c) (sa c) (ctx c) (opened c) (localAddr c) (remoteAddr c)
         rb (transitBuffer c) (outboundBuffer c).

Definition with_transit (c : conn) (tb : option bytebuffer.ByteBuffer) : conn :=
  mkConn (fd c) (sa c) (ctx c) (opened c) (localAddr c) (remoteAddr c)
         (inboundBuffer c) tb (outboundBuffer c).

Definition with_outbound (c : conn) (ob : mixedbuffer.Buffer) : conn :=
  mkConn (fd c) (sa c) (ctx c) (opened c) (localAddr c) (remoteAddr c)
         (inboundBuffer c) (transitBuffer c) ob.

(** *** The inbound side: methods the codec calls *)

(** [func (c *conn) Read() []byte] *)
Definition Read (c : conn) : conn * bytes :=
  let '(head, tail) := PeekAll (inboundBuffer c) in
  match tail with
  | None => (c, head)
  | Some tail =>
      match transitBuffer c with
      | None =>
          let tb := ByteBuffer (inboundBuffer c) in
          (with_transit c (Some tb), tb)
      | Some tb =>
          let tb := bytebuffer.Reset tb in
          let tb := bytebuffer.Write tb head in
          let tb := bytebuffer.Write tb tail in
          (with_transit c (Some tb), tb)
      end
  end.

(** [func (c *conn) ResetBuffer()] *)
Definition ResetBuffer (c : conn) : conn :=
  let c := with_inbound c (Reset (inboundBuffer c)) in
  match transitBuffer c with
  | Some tb => with_transit c (Some (bytebuffer.Reset tb))
  | None => c
  end.

(** [func (c *conn) ReadN(n int) (int, []byte)] *)
Definition ReadN (c : conn) (n : Z) : conn * (Z * bytes) :=
  let inBufferLen := Length (inboundBuffer c) in
  if (inBufferLen <=? n) || (n <=? 0) then
    let '(c, b) := Read c in (c, (inBufferLen, b))
  else
    let '(head, tail) := Peek (inboundBuffer c) n in
    match tail with
    | None => (c, (n, head))
    | Some tail =>
        let tb := match transitBuffer c with
                  | None => bytebuffer.Get
                  | Some tb => bytebuffer.Reset tb
                  end in
        let tb := bytebuffer.Write tb head in
        let tb := bytebuffer.Write tb tail in
        (with_transit c (Some tb), (n, tb))
    end.

(** [func (c *conn) ShiftN(n int) int] *)
Definition ShiftN (c : conn) (n : Z) : conn * Z :=
  let c := with_inbound c (Discard (inboundBuffer c) n).1 in
  let c := match transitBuffer c with
           | Some tb => with_transit c (Some (bytebuffer.Reset tb))
           | None => c
           end in
  (c, n).

(** [func (c *conn) BufferLength() int] *)
Definition BufferLength (c : conn) : Z := Length (inboundBuffer c).

(** *** The outbound side: the connection in its event loop *)

(** Modelled from the spec: the poll registration "holds the fd ... and
    the current interest mask (read-only, read+write)". *)
Inductive Interest := ReadOnly | ReadWrite.

Definition includesWrite (m : option Interest) : bool :=
  match m with
  | Some ReadWrite => true
  | _ => false
  end.

(** What [unix.Write] reports: [(n, nil)] with [n >= 0] bytes taken by the
    kernel, or a non-nil error. *)
Inductive sysret := Wrote (n : nat) | Failed (err : error).

(** What the connection does to the outside, in program order.  The codec
    and the handler hooks are user code: the trace records each call and
    its arguments; what that code does on its own behalf is no part of the
    connection's methods. *)
Inductive event :=
| CallEncode (buf : bytes)             (* c.codec.Encode(c, buf) *)
| HookPreWrite                         (* eventHandler.PreWrite(c) *)
| HookAfterWrite (buf : bytes)         (* eventHandler.AfterWrite(c, buf) *)
| SysWrite (fd : Z) (p : bytes)        (* unix.Write(c.fd, p) *)
| CallModReadWrite (fd : Z)            (* poller.ModReadWrite(c.pollAttachment) *)
| HookOnClosed (cause : option error)  (* eventHandler.OnClosed(c, err) *)
| CallDelete (fd : Z)                  (* poller deregistration *)
| SysClose (fd : Z).                   (* close(fd) *)

(** The collaborators of a connection whose code is outside these
    sources: the codec, the kernel, the poller and the close task. *)
Record Env := mkEnv {
  codec_Encode : conn -> bytes -> bytes * option error;
  unix_Write : Z -> bytes -> sysret;
  poller_Mod : Z -> option error;
  close_result : option error
}.

(** A connection together with its poll registration and the record of
    what it has done so far. *)
Record world := mkWorld {
  self : conn;
  interest : option Interest;   (* None: the fd is not registered *)
  trace : list event
}.

Definition emit (ev : event) (s : world) : world :=
  mkWorld (self s) (interest s) (trace s ++ [ev]).

(** [_, _ = c.outboundBuffer.Write(p)] *)
Definition bufferOut (p : bytes) (s : world) : world :=
  mkWorld (with_outbound (self s) (mixedbuffer.Write (outboundBuffer (self s)) p))
          (interest s) (trace s).

(** Modelled from the spec: [poller.ModReadWrite], absent from the
    sources, is "Modify(fd, interest) - change mask (notably Read <->
    Read+Write)".  The mask changes when the poller reports success. *)
Definition ModReadWrite (E : Env) (s : world) : world * option error :=
  let s := emit (CallModReadWrite (fd (self s))) s in
  match poller_Mod E (fd (self s)) with
  | None => (mkWorld (self s) (Some ReadWrite) (trace s), None)
  | Some err => (s, Some err)
  end.

(** [func (c *conn) releaseTCP()] *)
Definition releaseTCP (c : conn) : conn :=
  mkConn (fd c) None None false None None
         EmptyRingBuffer (transitBuffer c)
         (mixedbuffer.Release (outboundBuffer c)).

(** Modelled from the spec: [loopCloseConn] is in the absent event loop.
    "Close: ... on the owning loop, fires OnClose, deregisters the fd,
    returns pooled buffers, closes the fd, removes the registry entry."
    "Transitions into closing are idempotent; the loop guards against
    double-close."  The spec does not say what the close task returns:
    that is [close_result]. *)
Definition loopCloseConn (E : Env) (s : world) (err : option error)
  : world * option error :=
  if negb (opened (self s)) then (s, None)
  else
    let s := emit (HookOnClosed err) s in
    let s := emit (CallDelete (fd (self s))) s in
    let s := mkWorld (releaseTCP (self s)) None (trace s) in
    let s := emit (SysClose (fd (self s))) s in
    (s, close_result E).

(** [func (c *conn) open(buf []byte) error] *)
Definition open (E : Env) (s : world) (buf : bytes) : world * option error :=
  let s := emit HookPreWrite s in
  let s := emit (SysWrite (fd (self s)) buf) s in
  let '(s, err) :=
    match unix_Write E (fd (self s)) buf with
    | Failed err =>
        if decide (err = EAGAIN) then (bufferOut buf s, None)
        else (s, Some err)
    | Wrote n =>
        if (n <? length buf)%nat then (bufferOut (drop n buf) s, None)
        else (s, None)
    end in
  (* defer c.loop.eventHandler.AfterWrite(c, buf) *)
  (emit (HookAfterWrite buf) s, err).

(** [func (c *conn) write(buf []byte) (err error)] *)
Definition write (E : Env) (s : world) (buf : bytes) : world * option error :=
  let s := emit (CallEncode buf) s in
  let '(s, err) :=
    match codec_Encode E (self s) buf with
    | (_, Some err) => (s, Some err)
    | (packet, None) =>
        let s := emit HookPreWrite s in
        if negb (mixedbuffer.IsEmpty (outboundBuffer (self s))) then
          (bufferOut packet s, None)
        else
          let s := emit (SysWrite (fd (self s)) packet) s in
          match unix_Write E (fd (self s)) packet with
          | Failed err =>
              if decide (err = EAGAIN) then
                ModReadWrite E (bufferOut packet s)
              else
                loopCloseConn E s (Some (NewSyscallError "write" err))
          | Wrote n =>
              if (n <? length packet)%nat then
                ModReadWrite E (bufferOut (drop n packet) s)
              else (s, None)
          end
    end in
  (* defer c.loop.eventHandler.AfterWrite(c, buf) *)
  (emit (HookAfterWrite buf) s, err).

(** [func (c *conn) asyncWrite(itf interface{}) error], the task that
    [AsyncWrite] hands to the loop with the caller's bytes. *)
Definition asyncWrite (E : Env) (s : world) (itf : bytes)
  : world * option error :=
  if negb (opened (self s)) then (s, None)
  else write E s itf.

(** The bytes waiting in the outbound buffer. *)
Definition pending (s : world) : bytes :=
  mixedbuffer.contents (outboundBuffer (self s)).

(** "The poller's interest mask includes Write iff the outbound buffer is
    non-empty." *)
Definition armed_iff_pending (s : world) : Prop :=
  includesWrite (interest s) = negb (mixedbuffer.IsEmpty (outboundBuffer (self s))).

(** *** Accessors, and the tasks the thread-safe methods submit *)

(** [func (c *conn) Context() interface{}] *)
Definition Context (c : conn) : option Z := ctx c.

(** [func (c *conn) SetContext(ctx interface{})] *)
Definition SetContext (c : conn) (x : option Z) : conn :=
  mkConn (fd c) (sa c) x (opened c) (localAddr c) (remoteAddr c)
         (inboundBuffer c) (transitBuffer c) (outboundBuffer c).

(** [func (c *conn) LocalAddr() net.Addr] and [RemoteAddr()] *)
Definition LocalAddr (c : conn) : option string := localAddr c.
Definition RemoteAddr (c : conn) : option string := remoteAddr c.

(** The callbacks that [AsyncWrite] and [Close] pass to [poller.Trigger]:
    [c.asyncWrite] with the caller's bytes, and the closure
    [func(_ interface{}) error { return c.loop.loopCloseConn(c, nil) }]. *)
Inductive task :=
| AsyncWriteTask (buf : bytes)
| CloseTask.

(** [func (c *conn) AsyncWrite(buf []byte) error] and
    [func (c *conn) Close() error], as the task each one submits. *)
Definition AsyncWrite (buf : bytes) : task := AsyncWriteTask buf.
Definition Close : task := CloseTask.

(** Running one submitted task on the loop. *)
Definition run_task (E : Env) (s : world) (t : task) : world * option error :=
  match t with
  | AsyncWriteTask buf => asyncWrite E s buf
  | CloseTask => loopCloseConn E s None
  end.

(** Running submitted tasks one after the other; errors are collected. *)
Fixpoint run_tasks (E : Env) (s : world) (ts : list task)
  : world * list (option error) :=
  match ts with
  | [] => (s, [])
  | t :: rest =>
      let '(s, err) := run_task E s t in
      let '(s, errs) := run_tasks E s rest in
      (s, err :: errs)
  end.

(** Successive calls of [write], one per buffer. *)
Fixpoint write_all (E : Env) (s : world) (bufs : list bytes)
  : world * list (option error) :=
  match bufs with
  | [] => (s, [])
  | buf :: rest =>
      let '(s, err) := write E s buf in
      let '(s, errs) := write_all E s rest in
      (s, err :: errs)
  end.

(** Events that reach the kernel or the poller. *)
Definition is_kernel_call (ev : event) : bool :=
  match ev with
  | SysWrite _ _ | CallModReadWrite _ | CallDelete _ | SysClose _ => true
  | CallEncode _ | HookPreWrite | HookAfterWrite _ | HookOnClosed _ => false
  end.

End gnet.

Import gnet.

(* ------------------------------------------------------------------ *)
(** ** The scatter/gather adapter (io_linux.go) *)

Module io.

(** Conversions between Go's [int], [uint64] and [uintptr] (64 bits). *)
Definition uint64 (x : Z) : Z := x mod 2 ^ 64.
Definition uintptr (x : Z) : Z := x mod 2 ^ 64.
Definition int (x : Z) : Z := (x + 2 ^ 63) mod 2 ^ 64 - 2 ^ 63.

(** unix.SYS_SENDMSG (linux/amd64) and unix.MSG_ZEROCOPY. *)
Definition SYS_SENDMSG : Z := 46.
Definition MSG_ZEROCOPY : Z := 0x4000000.

(** Where an iovec points: at the first byte of a slice (given by the
    bytes that start there), at the package's [_zero] byte, or nowhere
    (the zero value of [*byte]). *)
Inductive pointer :=
| AddrOf (data : bytes)
| AddrZero
| Nil.

(** unix.Iovec and unix.Msghdr, with the fields [SendMsgs] sets.  [Iov]
    points at element 0 of an iovec array: it is the array from there. *)
Record Iovec := mkIovec { Base : pointer; Len : Z }.
Record Msghdr := mkMsghdr { Iov : list Iovec; Iovlen : Z }.

(** [iov.SetLen(length)]: [iov.Len = uint64(length)]. *)
Definition SetLen (length : Z) (iov : Iovec) : Iovec :=
  mkIovec (Base iov) (uint64 length).

Definition SetBase (p : pointer) (iov : Iovec) : Iovec :=
  mkIovec p (Len iov).

(** [unix.Syscall(trap, a1, a2, a3)] where [a2] is the address of a
    message header. *)
Record syscall := mkSyscall {
  trap : Z;
  a1 : Z;
  a2 : Msghdr;
  a3 : Z
}.

(** How a Go call ends: it returns, or it panics. *)
Inductive outcome (A : Type) :=
| Returns (a : A)
| Panics (msg : string).
Arguments Returns {A} a.
Arguments Panics {A} msg.

(** The kernel's answer to a system call: [(r1, r2, errno)]. *)
Definition kernel := syscall -> Z * Z * Z.

(** The body of [for i, iov := range iovs], from index [i] on. *)
Fixpoint fill (i : nat) (iovs : list bytes) (iovecs : list Iovec)
  : list Iovec :=
  match iovs with
  | [] => iovecs
  | iov :: rest =>
      let iovecs := alter (SetLen (Z.of_nat (length iov))) i iovecs in
      let iovecs :=
        if (0 <? length iov)%nat
        then alter (SetBase (AddrOf iov)) i iovecs
        else alter (SetBase AddrZero) i iovecs in
      fill (S i) rest iovecs
  end.

(** [func SendMsgs(fd int, iovs [][]byte) (int, error)]: the system calls
    made, and how the call ends. *)
Definition SendMsgs (K : kernel) (fd : Z) (iovs : list bytes)
  : list syscall * outcome (Z * option error) :=
  let iovecs := replicate (length iovs) (mkIovec Nil 0) in
  let iovecs := fill 0 iovs iovecs in
  match iovecs with
  | [] => ([], Panics "runtime error: index out of range [0] with length 0")
  | _ :: _ =>
      let msg := mkMsghdr iovecs (uint64 (Z.of_nat (length iovecs))) in
      let call := mkSyscall SYS_SENDMSG (uintptr fd) msg (uintptr MSG_ZEROCOPY) in
      let '(r, _, errno) := K call in
      if negb (errno =? 0) then ([call], Returns (0, Some (Errno errno)))
      else ([call], Returns (int r, None))
  end.

(** The bytes an iovec designates: [Len] bytes from [Base]. *)
Definition covered (iov : Iovec) : bytes :=
  match Base iov with
  | AddrOf data => take (Z.to_nat (Len iov)) data
  | AddrZero | Nil => []
  end.

(** Go slice lengths are [int]s. *)
Definition fits_int (n : nat) : Prop := Z.of_nat n < 2 ^ 63.

(** The iovec the loop leaves at the index of one slice. *)
Definition iovec_of (iov : bytes) : Iovec :=
  mkIovec (if (0 <? length iov)%nat then AddrOf iov else AddrZero)
          (uint64 (Z.of_nat (length iov))).

End io.

(** How one slice shows in its iovec: an empty slice as the address of
    the package's zero byte with length 0, a slice with bytes as the
    address of its first byte. *)
Definition iovec_matches (iov : bytes) (v : io.Iovec) : Prop :=
  match iov with
  | [] => io.Base v = io.AddrZero /\ io.Len v = 0
  | _ :: _ => io.Base v = io.AddrOf iov
  end.

(* ------------------------------------------------------------------ *)
(** ** Concrete connections and collaborators *)

(** Collaborators for the examples: an identity codec, a
    kernel whose socket buffer is full, one that takes two bytes, one that
    reports a broken pipe, and a codec that refuses to encode. *)
Definition identity_codec (c : conn) (buf : bytes) : bytes * option error :=
  (buf, None).

Definition failing_codec (c : conn) (buf : bytes) : bytes * option error :=
  ([], Some (OpaqueError "frame too large")).

Definition env_eagain : Env :=
  mkEnv identity_codec (fun _ _ => Failed EAGAIN) (fun _ => None) None.

Definition env_partial : Env :=
  mkEnv identity_codec (fun _ _ => Wrote 2) (fun _ => None) None.

Definition env_epipe : Env :=
  mkEnv identity_codec (fun _ _ => Failed (Errno 32)) (fun _ => None) None.

Definition env_bad_codec : Env :=
  mkEnv failing_codec (fun _ p => Wrote (length p)) (fun _ => None) None.

Definition hello : bytes :=
  [Byte.x68; Byte.x65; Byte.x6c; Byte.x6c; Byte.x6f].

(** An open connection on fd 7, registered for reading, with nothing
    buffered in either direction. *)
Definition idle_conn : conn :=
  mkConn 7 (Some "10.0.0.2:4000") None true
         (Some "10.0.0.1:9000") (Some "10.0.0.2:4000")
         (mkRing (replicate 4 Byte.x00) 4 0 0) None (mixedbuffer.New 8).

Definition idle : world := mkWorld idle_conn (Some ReadOnly) [].

(** The same connection with two bytes waiting to be flushed. *)
Definition backlogged : world :=
  mkWorld (with_outbound idle_conn
             (mixedbuffer.Write (mixedbuffer.New 8) [Byte.x6f; Byte.x6b]))
          (Some ReadWrite) [].

(** A kernel that takes whatever it is given. *)
Definition env_takes_all : Env :=
  mkEnv identity_codec (fun _ p => Wrote (length p)) (fun _ => None) None.

(** An open connection whose ring of capacity 4 holds the three bytes
    "dab", wrapped around the end of the array, with a stale transit
    buffer. *)
Definition wrapped_conn : conn :=
  mkConn 7 None (Some 42) true None None
         (mkRing [Byte.x61; Byte.x62; Byte.x63; Byte.x64] 4 3 6)
         (Some [Byte.x64; Byte.x61]) (mixedbuffer.New 8).

(** A kernel that takes every byte of a message, and one that refuses
    with ENOBUFS (105), leaving -1 in the result register. *)
Definition kernel_takes_all : io.kernel :=
  fun call =>
    (foldr Z.add 0 (io.Len <$> io.Iov (io.a2 call)), 0, 0).

Definition kernel_refuses : io.kernel :=
  fun call => (2 ^ 64 - 1, 0, 105).

Definition three_slices : list bytes :=
  [hello; []; [Byte.x6f; Byte.x6b]].

(* ------------------------------------------------------------------ *)
(** ** Facts about the ring buffer *)

Lemma wfb_wf rb : wfb rb = true -> wf rb.
Proof.
  unfold wfb. rewrite !andb_true_iff.
  intros [[[[[[H1 H2] H3] H4] H5] H6] H7].
  constructor; lia.
Qed.

Section RingFacts.
Variable rb : RingBuffer.
Hypothesis Hwf : wf rb.

Lemma Length_nonneg : 0 <= Length rb.
Proof.
  destruct Hwf. unfold Length.
  apply Z.mod_pos_bound. lia.
Qed.

Lemma rpos_bound : 0 <= rpos rb < size rb.
Proof. destruct Hwf. unfold rpos. apply Z.mod_pos_bound. lia. Qed.

(** Discarding [d] bytes, [0 <= d <= Length], shortens the ring by [d]. *)
Lemma Length_advance d :
  0 <= d <= Length rb ->
  (w rb - (r rb + d) mod (2 * size rb)) mod (2 * size rb) = Length rb - d.
Proof.
  intros Hd. pose proof Hwf as [Hs _ _ _ Hl].
  rewrite Zminus_mod_idemp_r.
  replace (w rb - (r rb + d)) with ((w rb - r rb) - d) by lia.
  rewrite <- Zminus_mod_idemp_l.
  fold (Length rb).
  apply Z.mod_small. lia.
Qed.

(** The doubled array, cut at the read position. *)
Lemma window_split :
  drop (Z.to_nat (rpos rb)) (buf rb ++ buf rb)
  = drop (Z.to_nat (rpos rb)) (buf rb) ++ buf rb.
Proof.
  pose proof rpos_bound. destruct Hwf.
  rewrite drop_app_le by lia. reflexivity.
Qed.

(** What [Peek] hands out, glued together, for an in-range count. *)
Lemma Peek_glue m :
  0 <= m <= Length rb ->
  (let '(head, tail) :=
     (if rpos rb + m <=? size rb
      then (slice (buf rb) (rpos rb) (rpos rb + m), None)
      else (slice (buf rb) (rpos rb) (size rb),
            Some (slice (buf rb) 0 (rpos rb + m - size rb))))
   in head ++ default [] tail)
  = take (Z.to_nat m) (contents rb).
Proof.
  intros Hm. pose proof rpos_bound as Hp. pose proof Hwf as [Hs Hb _ _ Hl].
  unfold contents. rewrite take_take.
  replace (Z.to_nat m `min` Z.to_nat (Length rb))%nat with (Z.to_nat m) by lia.
  rewrite window_split.
  destruct (Z.leb_spec (rpos rb + m) (size rb)) as [Hfit|Hwrap]; simpl.
  - rewrite app_nil_r. unfold slice.
    replace (rpos rb + m - rpos rb) with m by lia.
    rewrite take_app_le; [reflexivity|].
    rewrite length_drop. lia.
  - unfold slice.
    rewrite take_app_ge by (rewrite length_drop; lia).
    rewrite length_drop.
    rewrite (take_ge (drop _ _)) by (rewrite length_drop; lia).
    f_equal. rewrite drop_0. f_equal. lia.
Qed.

Lemma contents_length : Z.of_nat (length (contents rb)) = Length rb.
Proof.
  pose proof rpos_bound as Hp. pose proof Length_nonneg as Hn.
  pose proof Hwf as [Hs Hb _ _ Hl].
  unfold contents. rewrite length_take, length_drop, length_app. lia.
Qed.

(** The i-th buffered byte is the cell [(r + i) mod C] of the array. *)
Lemma contents_lookup (i : Z) :
  0 <= i < Length rb ->
  contents rb !! Z.to_nat i = buf rb !! Z.to_nat ((r rb + i) mod size rb).
Proof.
  intros Hi. pose proof rpos_bound as Hp. pose proof Hwf as [Hs Hb _ _ Hl].
  unfold contents.
  rewrite lookup_take_lt by lia.
  rewrite lookup_drop.
  assert (Hmod : (r rb + i) mod size rb = (rpos rb + i) mod size rb).
  { unfold rpos. rewrite Zplus_mod_idemp_l. reflexivity. }
  rewrite Hmod.
  destruct (Z_lt_ge_dec (rpos rb + i) (size rb)) as [Hlt|Hge].
  - rewrite Z.mod_small by lia.
    rewrite lookup_app_l by lia. f_equal. lia.
  - rewrite lookup_app_r by lia.
    replace ((rpos rb + i) mod size rb) with (rpos rb + i - size rb).
    + f_equal. lia.
    + apply Z.mod_unique with 1; lia.
Qed.

Lemma PeekAll_glue :
  (let '(head, tail) := PeekAll rb in head ++ default [] tail) = contents rb.
Proof.
  pose proof Length_nonneg as Hn.
  unfold PeekAll, Peek.
  replace (if (Length rb <=? 0) || (Length rb <? Length rb)
           then Length rb else Length rb) with (Length rb)
    by (destruct (_ || _); reflexivity).
  fold (rpos rb).
  rewrite (Peek_glue (Length rb)) by lia.
  apply take_ge. pose proof contents_length. lia.
Qed.

Lemma ByteBuffer_contents : ByteBuffer rb = contents rb.
Proof. unfold ByteBuffer. apply PeekAll_glue. Qed.

End RingFacts.

(* ------------------------------------------------------------------ *)
(** ** The inbound side of the connection *)

Section InboundFacts.
Variable c : conn.
Hypothesis Hwf : wf (inboundBuffer c).

(** [Read] hands out everything that is buffered and leaves the ring as
    it was. *)
Lemma Read_all :
  inboundBuffer (Read c).1 = inboundBuffer c
  /\ (Read c).2 = contents (inboundBuffer c).
Proof.
  pose proof (PeekAll_glue _ Hwf) as Hglue.
  pose proof (ByteBuffer_contents _ Hwf) as Hbb.
  unfold Read.
  destruct (PeekAll (inboundBuffer c)) as [head [tail|]]; simpl in *.
  - destruct (transitBuffer c) as [tb|]; simpl; split; auto.
  - rewrite app_nil_r in Hglue. auto.
Qed.

(** [Peek] with a count strictly inside the buffer. *)
Lemma Peek_prefix n :
  0 < n < Length (inboundBuffer c) ->
  (let '(head, tail) := Peek (inboundBuffer c) n in head ++ default [] tail)
  = take (Z.to_nat n) (contents (inboundBuffer c)).
Proof.
  intros Hn. unfold Peek.
  replace ((n <=? 0) || (Length (inboundBuffer c) <? n)) with false
    by (symmetry; apply orb_false_iff; split; lia).
  apply Peek_glue; [assumption | lia].
Qed.

(** The length after [ShiftN] with a count that is not negative. *)
Lemma ShiftN_length k :
  0 <= k ->
  BufferLength (ShiftN c k).1
  = BufferLength c - Z.min k (BufferLength c).
Proof.
  intros Hk. pose proof (Length_nonneg _ Hwf) as Hn.
  unfold ShiftN, BufferLength.
  destruct (transitBuffer _); simpl;
    unfold Length at 1; simpl; apply Length_advance; auto; lia.
Qed.

End InboundFacts.

(** C4 (counterexample).  On an empty ring of capacity 4, [ShiftN(-8)]
    leaves [BufferLength()] at 0: the length has decreased by 0, which is
    not [min(-8, 0) = -8]. *)
Lemma ShiftN_negative_count_counterexample :
  let c := mkConn 7 None None true None None
                  (mkRing (replicate 4 Byte.x00) 4 0 0) None
                  (mixedbuffer.New 8) in
  wfb (inboundBuffer c) = true
  /\ BufferLength c = 0
  /\ BufferLength (ShiftN c (-8)).1 = 0
  /\ BufferLength c - BufferLength (ShiftN c (-8)).1
     <> Z.min (-8) (BufferLength c).
Proof. vm_compute. repeat split; discriminate. Qed.

(** C4 (amended).  For every count [k >= 0] and every inbound buffer of
    prior length [L], [ShiftN(k)] decreases [BufferLength()] by exactly
    [min(k, L)]. *)
Theorem ShiftN_decreases_length (c : conn) (k : Z) :
  wf (inboundBuffer c) ->
  0 <= k ->
  BufferLength c - BufferLength (ShiftN c k).1 = Z.min k (BufferLength c).
Proof.
  intros Hwf Hk.
  pose proof (ShiftN_length c Hwf k Hk). lia.
Qed.

Lemma ShiftN_decreases_length_witness :
  let c := mkConn 7 None None true None None
                  (mkRing [Byte.x61; Byte.x62; Byte.x63; Byte.x64] 4 3 6)
                  (Some [Byte.x64; Byte.x61]) (mixedbuffer.New 8) in
  BufferLength c = 3
  /\ BufferLength c - BufferLength (ShiftN c 2).1 = Z.min 2 (BufferLength c)
  /\ BufferLength c - BufferLength (ShiftN c 5).1 = Z.min 5 (BufferLength c).
Proof.
  intros c. split; [reflexivity|]. split.
  - apply (ShiftN_decreases_length c 2); [apply wfb_wf; reflexivity | lia].
  - apply (ShiftN_decreases_length c 5); [apply wfb_wf; reflexivity | lia].
Defined.

(** C5.  [ReadN(n)] does not consume inbound data.  With [L] bytes
    buffered it returns [(L, all L bytes)] when [n <= 0] or [n >= L], and
    [(n, the first n bytes in FIFO order)] when [0 < n < L]; its result
    type has no error component, so asking for more than is buffered is
    not an error. *)
Theorem ReadN_peeks (c : conn) (n : Z) :
  wf (inboundBuffer c) ->
  let L := BufferLength c in
  let all := contents (inboundBuffer c) in
  inboundBuffer (ReadN c n).1 = inboundBuffer c
  /\ BufferLength (ReadN c n).1 = L
  /\ Z.of_nat (length all) = L
  /\ (n <= 0 \/ L <= n -> (ReadN c n).2 = (L, all))
  /\ (0 < n < L -> (ReadN c n).2 = (n, take (Z.to_nat n) all)).
Proof.
  intros Hwf L all.
  pose proof (Read_all c Hwf) as [Hin Hdata].
  assert (Hsame : inboundBuffer (ReadN c n).1 = inboundBuffer c).
  { unfold ReadN. destruct (_ || _).
    - destruct (Read c) as [c' b]; simpl in *. assumption.
    - destruct (Peek (inboundBuffer c) n) as [head [tail|]]; reflexivity. }
  split; [assumption|].
  split; [unfold L, BufferLength; rewrite Hsame; reflexivity|].
  split; [apply contents_length; assumption|].
  split.
  - intros Hn. unfold ReadN. fold (BufferLength c). fold L.
    replace ((L <=? n) || (n <=? 0)) with true
      by (symmetry; apply orb_true_iff; lia).
    destruct (Read c) as [c' b]; simpl in *. subst b. reflexivity.
  - intros Hn. unfold ReadN. fold (BufferLength c). fold L.
    replace ((L <=? n) || (n <=? 0)) with false
      by (symmetry; apply orb_false_iff; lia).
    pose proof (Peek_prefix c Hwf n Hn) as Hp.
    unfold all. rewrite <- Hp.
    destruct (Peek (inboundBuffer c) n) as [head [tail|]]; simpl.
    + destruct (transitBuffer c); reflexivity.
    + rewrite app_nil_r. reflexivity.
Qed.

Lemma ReadN_peeks_witness :
  let c := mkConn 7 None None true None None
                  (mkRing [Byte.x61; Byte.x62; Byte.x63; Byte.x64] 4 3 6)
                  None (mixedbuffer.New 8) in
  BufferLength c = 3
  /\ (ReadN c 2).2 = (2, [Byte.x64; Byte.x61])
  /\ (ReadN c 9).2 = (3, [Byte.x64; Byte.x61; Byte.x62])
  /\ (ReadN c 0).2 = (3, [Byte.x64; Byte.x61; Byte.x62])
  /\ inboundBuffer (ReadN c 2).1 = inboundBuffer c.
Proof.
  intros c.
  assert (Hwf : wf (inboundBuffer c)) by (apply wfb_wf; reflexivity).
  split; [reflexivity|].
  split; [apply (ReadN_peeks c 2 Hwf); unfold BufferLength; simpl; vm_compute; split; reflexivity|].
  split; [apply (ReadN_peeks c 9 Hwf); right; vm_compute; discriminate|].
  split; [apply (ReadN_peeks c 0 Hwf); left; lia|].
  apply (ReadN_peeks c 2 Hwf).
Defined.

(** C10.  [ShiftN(k)] returns [k] whatever the buffer holds; when [k]
    exceeds the buffered length the ring is emptied, so the value returned
    is not the number of bytes discarded; and a transit buffer that is
    present is reset by every call. *)
Theorem ShiftN_returns_argument (c : conn) (k : Z) :
  (ShiftN c k).2 = k
  /\ transitBuffer (ShiftN c k).1 = bytebuffer.Reset <$> transitBuffer c
  /\ (wf (inboundBuffer c) -> BufferLength c < k ->
      BufferLength (ShiftN c k).1 = 0
      /\ (ShiftN c k).2 <> BufferLength c - BufferLength (ShiftN c k).1).
Proof.
  split; [reflexivity|]. split.
  - unfold ShiftN. simpl.
    destruct (transitBuffer c) eqn:Htb; simpl; rewrite ?Htb; reflexivity.
  - intros Hwf Hk.
    pose proof (Length_nonneg _ Hwf) as Hn.
    pose proof (ShiftN_length c Hwf k) as Hd.
    unfold BufferLength in *.
    assert (H0 : Length (inboundBuffer (ShiftN c k).1) = 0) by lia.
    split; [assumption|]. rewrite H0. simpl. lia.
Qed.

Lemma ShiftN_returns_argument_witness :
  let c := mkConn 7 None None true None None
                  (mkRing [Byte.x61; Byte.x62; Byte.x63; Byte.x64] 4 3 6)
                  (Some [Byte.x64; Byte.x61]) (mixedbuffer.New 8) in
  BufferLength c = 3
  /\ (ShiftN c 5).2 = 5
  /\ transitBuffer (ShiftN c 5).1 = Some []
  /\ BufferLength (ShiftN c 5).1 = 0
  /\ (ShiftN c 5).2 <> BufferLength c - BufferLength (ShiftN c 5).1.
Proof.
  intros c.
  destruct (ShiftN_returns_argument c 5) as (Hret & Htb & Hover).
  destruct Hover as [Hzero Hne];
    [apply wfb_wf; reflexivity | vm_compute; reflexivity |].
  repeat split; assumption.
Defined.

(* ------------------------------------------------------------------ *)
(** ** The outbound buffer *)

Section OutboundFacts.
Import mixedbuffer.
Variable b : Buffer.

(** [Write] appends in FIFO order, wherever the bytes go. *)
Lemma Write_contents p :
  mixedbuffer.contents (Write b p) = mixedbuffer.contents b ++ p.
Proof.
  unfold mixedbuffer.contents, Write.
  destruct (segments b) as [|seg segs] eqn:Hsegs.
  - destruct (_ <=? _); simpl; rewrite !app_nil_r; reflexivity.
  - cbn [segments ringBytes]. rewrite concat_app. simpl.
    rewrite app_nil_r, app_assoc. reflexivity.
Qed.

Lemma IsEmpty_contents :
  mixedbuffer.IsEmpty b = true -> mixedbuffer.contents b = [].
Proof.
  unfold mixedbuffer.IsEmpty, mixedbuffer.contents.
  destruct (ringBytes b), (segments b); simpl; congruence.
Qed.

(** A buffer that holds something still does after a [Write]. *)
Lemma Write_stays_nonempty p :
  mixedbuffer.IsEmpty b = false -> mixedbuffer.IsEmpty (Write b p) = false.
Proof.
  unfold mixedbuffer.IsEmpty, Write.
  destruct (ringBytes b) as [|x rb] eqn:Hr, (segments b) as [|seg segs] eqn:Hs;
    simpl; try congruence; intros _;
    try reflexivity; destruct (_ <=? _); reflexivity.
Qed.

(** Writing at least one byte makes the buffer non-empty. *)
Lemma Write_nonempty p :
  p <> [] -> mixedbuffer.IsEmpty (Write b p) = false.
Proof.
  intros Hp. unfold mixedbuffer.IsEmpty, Write.
  destruct (segments b) as [|seg segs] eqn:Hs.
  - destruct (_ <=? _); cbn [ringBytes segments].
    + destruct (ringBytes b ++ p) eqn:Happ; [|reflexivity].
      apply app_eq_nil in Happ. tauto.
    + destruct (ringBytes b); reflexivity.
  - cbn [ringBytes segments].
    destruct (ringBytes b); [|reflexivity].
    destruct (segs ++ [p]) eqn:Happ; [|reflexivity].
    destruct segs; discriminate.
Qed.

End OutboundFacts.

(* ------------------------------------------------------------------ *)
(** ** The synchronous write path *)

(** C1.  With the packet [codec.Encode] produced: if the outbound buffer is
    non-empty the packet is appended to it and no write syscall is made; if
    it is empty one write syscall is tried, and on EAGAIN the whole packet,
    or after a partial write of [n] bytes the remaining [len(packet) - n]
    bytes, are appended to the outbound buffer and the poller is asked for
    read+write interest (which it then holds when the poller accepts). *)
Theorem write_buffers_or_sends (E : Env) (s : world) (buf packet : bytes) :
  codec_Encode E (self s) buf = (packet, None) ->
  let fd0 := fd (self s) in
  let s' := (write E s buf).1 in
  (mixedbuffer.IsEmpty (outboundBuffer (self s)) = false ->
     pending s' = pending s ++ packet
     /\ trace s' = trace s ++ [CallEncode buf; HookPreWrite; HookAfterWrite buf]
     /\ interest s' = interest s)
  /\ (mixedbuffer.IsEmpty (outboundBuffer (self s)) = true ->
      (exists rest,
          trace s' = trace s
                     ++ [CallEncode buf; HookPreWrite; SysWrite fd0 packet] ++ rest)
      /\ (unix_Write E fd0 packet = Failed EAGAIN ->
          pending s' = packet
          /\ trace s' = trace s
                        ++ [CallEncode buf; HookPreWrite; SysWrite fd0 packet;
                            CallModReadWrite fd0; HookAfterWrite buf]
          /\ (write E s buf).2 = poller_Mod E fd0
          /\ (poller_Mod E fd0 = None -> interest s' = Some ReadWrite))
      /\ (forall n : nat,
          unix_Write E fd0 packet = Wrote n -> (n < length packet)%nat ->
          pending s' = drop n packet
          /\ length (pending s') = (length packet - n)%nat
          /\ trace s' = trace s
                        ++ [CallEncode buf; HookPreWrite; SysWrite fd0 packet;
                            CallModReadWrite fd0; HookAfterWrite buf]
          /\ (write E s buf).2 = poller_Mod E fd0
          /\ (poller_Mod E fd0 = None -> interest s' = Some ReadWrite))).
Proof.
  intros Henc fd0 s'. subst s' fd0. unfold write. cbn [self emit].
  rewrite Henc. split.
  - intros Hne. cbn [self emit outboundBuffer]. rewrite Hne. simpl.
    unfold pending. simpl. rewrite Write_contents.
    repeat split. rewrite <- !app_assoc. reflexivity.
  - intros Hemp. cbn [self emit outboundBuffer]. rewrite Hemp.
    cbn [negb]. cbn iota.
    assert (Hpend : forall p, mixedbuffer.contents
                (mixedbuffer.Write (outboundBuffer (self s)) p) = p).
    { intros p. rewrite Write_contents, IsEmpty_contents by assumption.
      reflexivity. }
    split; [|split].
    + destruct (unix_Write E (fd (self s)) packet) as [n|err].
      * destruct (n <? length packet)%nat.
        -- unfold ModReadWrite; cbn [self emit bufferOut with_outbound fd trace].
           destruct (poller_Mod E (fd (self s))); simpl;
             rewrite <- !app_assoc; simpl; eexists; reflexivity.
        -- simpl. rewrite <- !app_assoc. simpl. eexists; reflexivity.
      * destruct (decide (err = EAGAIN)).
        -- unfold ModReadWrite; cbn [self emit bufferOut with_outbound fd trace].
           destruct (poller_Mod E (fd (self s))); simpl;
             rewrite <- !app_assoc; simpl; eexists; reflexivity.
        -- unfold loopCloseConn. cbn [self emit].
           destruct (negb (opened (self s))); simpl;
             rewrite <- !app_assoc; simpl; eexists; reflexivity.
    + intros Hsys. rewrite Hsys. rewrite decide_True by reflexivity.
      unfold ModReadWrite, pending.
      cbn [self emit bufferOut with_outbound fd trace].
      destruct (poller_Mod E (fd (self s))) eqn:Hmod; simpl;
        rewrite Hpend, <- !app_assoc; simpl; repeat split; congruence.
    + intros n Hsys Hn. rewrite Hsys.
      apply Nat.ltb_lt in Hn as Hnb. rewrite Hnb.
      unfold ModReadWrite, pending.
      cbn [self emit bufferOut with_outbound fd trace].
      destruct (poller_Mod E (fd (self s))) eqn:Hmod; simpl;
        rewrite Hpend, <- !app_assoc, length_drop; simpl;
        repeat split; congruence.
Qed.

Lemma write_buffers_or_sends_witness :
  (* two bytes pending: the packet goes behind them, no syscall *)
  (pending (write env_eagain backlogged hello).1
   = [Byte.x6f; Byte.x6b] ++ hello
   /\ trace (write env_eagain backlogged hello).1
      = [CallEncode hello; HookPreWrite; HookAfterWrite hello])
  (* nothing pending, socket buffer full: the whole packet is kept *)
  /\ (pending (write env_eagain idle hello).1 = hello
      /\ interest (write env_eagain idle hello).1 = Some ReadWrite)
  (* nothing pending, two bytes taken: the other three are kept *)
  /\ (pending (write env_partial idle hello).1 = drop 2 hello
      /\ length (pending (write env_partial idle hello).1) = 3%nat
      /\ interest (write env_partial idle hello).1 = Some ReadWrite).
Proof.
  split; [|split].
  - destruct (write_buffers_or_sends env_eagain backlogged hello hello)
      as [Hbusy _]; [reflexivity|].
    destruct Hbusy as (Hp & Ht & _); [reflexivity|].
    split; assumption.
  - destruct (write_buffers_or_sends env_eagain idle hello hello)
      as [_ Hidle]; [reflexivity|].
    destruct Hidle as (_ & Hagain & _); [reflexivity|].
    destruct Hagain as (Hp & _ & _ & Hi); [reflexivity|].
    split; [assumption | apply Hi; reflexivity].
  - destruct (write_buffers_or_sends env_partial idle hello hello)
      as [_ Hidle]; [reflexivity|].
    destruct Hidle as (_ & _ & Hpart); [reflexivity|].
    destruct (Hpart 2%nat) as (Hp & Hl & _ & _ & Hi);
      [reflexivity | simpl; lia |].
    split; [assumption|]. split; [assumption | apply Hi; reflexivity].
Defined.

(** C3.  [write] starts with [codec.Encode(conn, buf)]; when [Encode]
    returns an error, [write] returns that error and leaves the connection
    as it was: no write syscall, nothing appended to the outbound buffer,
    the poller interest untouched.  Only the deferred [AfterWrite] hook
    still runs. *)
Theorem write_encode_error (E : Env) (s : world) (buf : bytes) :
  (exists rest, trace (write E s buf).1 = trace s ++ CallEncode buf :: rest)
  /\ (forall packet err,
      codec_Encode E (self s) buf = (packet, Some err) ->
      write E s buf
      = (mkWorld (self s) (interest s)
                 (trace s ++ [CallEncode buf; HookAfterWrite buf]),
         Some err)).
Proof.
  split.
  - unfold write. cbn [self emit].
    destruct (codec_Encode E (self s) buf) as [packet [err|]].
    + simpl. rewrite <- app_assoc. eexists; reflexivity.
    + cbn [self emit outboundBuffer].
      destruct (negb (mixedbuffer.IsEmpty (outboundBuffer (self s)))).
      * simpl. rewrite <- !app_assoc. eexists; reflexivity.
      * destruct (unix_Write E (fd (self s)) packet) as [n|err].
        -- destruct (n <? length packet)%nat;
             [unfold ModReadWrite;
              cbn [self emit bufferOut with_outbound fd trace];
              destruct (poller_Mod E (fd (self s)))|];
             simpl; rewrite <- !app_assoc; eexists; reflexivity.
        -- destruct (decide (err = EAGAIN));
             [unfold ModReadWrite;
              cbn [self emit bufferOut with_outbound fd trace];
              destruct (poller_Mod E (fd (self s)))
             |unfold loopCloseConn; cbn [self emit];
              destruct (negb (opened (self s)))];
             simpl; rewrite <- !app_assoc; eexists; reflexivity.
  - intros packet err Henc. unfold write. cbn [self emit].
    rewrite Henc. unfold emit. simpl. rewrite <- app_assoc. reflexivity.
Qed.

Lemma write_encode_error_witness :
  write env_bad_codec idle hello
  = (mkWorld idle_conn (Some ReadOnly) [CallEncode hello; HookAfterWrite hello],
     Some (OpaqueError "frame too large")).
Proof.
  destruct (write_encode_error env_bad_codec idle hello) as [_ Herr].
  apply (Herr []). reflexivity.
Defined.

(** C6.  When the direct write syscall fails with an error other than
    EAGAIN, [write] hands the connection to [loopCloseConn] with the cause
    [os.NewSyscallError("write", err)] and nothing is put in the outbound
    buffer; on an open connection [OnClosed] receives that cause. *)
Theorem write_hard_error_closes (E : Env) (s : world) (buf packet : bytes)
        (err : error) :
  codec_Encode E (self s) buf = (packet, None) ->
  mixedbuffer.IsEmpty (outboundBuffer (self s)) = true ->
  unix_Write E (fd (self s)) packet = Failed err ->
  err <> EAGAIN ->
  let fd0 := fd (self s) in
  let cause := SyscallError "write" err in
  let before_close :=
    mkWorld (self s) (interest s)
            (trace s ++ [CallEncode buf; HookPreWrite; SysWrite fd0 packet]) in
  let s' := (write E s buf).1 in
  write E s buf
  = (emit (HookAfterWrite buf) (loopCloseConn E before_close (Some cause)).1,
     (loopCloseConn E before_close (Some cause)).2)
  /\ pending s' = []
  /\ (opened (self s) = true ->
      trace s' = trace s
                 ++ [CallEncode buf; HookPreWrite; SysWrite fd0 packet;
                     HookOnClosed (Some cause); CallDelete fd0; SysClose fd0;
                     HookAfterWrite buf]
      /\ opened (self s') = false
      /\ interest s' = None
      /\ (write E s buf).2 = close_result E).
Proof.
  intros Henc Hemp Hsys Hne fd0 cause before_close s'.
  assert (Heq : write E s buf
    = (emit (HookAfterWrite buf) (loopCloseConn E before_close (Some cause)).1,
       (loopCloseConn E before_close (Some cause)).2)).
  { unfold write. cbn [self emit]. rewrite Henc.
    cbn [self emit outboundBuffer]. rewrite Hemp. cbn [negb]. cbn iota.
    rewrite Hsys. rewrite decide_False by assumption.
    unfold before_close, cause, fd0, NewSyscallError, emit.
    cbn [self interest trace]. rewrite <- !app_assoc. simpl.
    destruct (loopCloseConn E _ _). reflexivity. }
  split; [assumption|].
  subst s'. rewrite Heq. unfold loopCloseConn, before_close, pending.
  cbn [self emit fst snd].
  split.
  - destruct (opened (self s)); simpl.
    + reflexivity.
    + apply IsEmpty_contents. assumption.
  - intros Hopen. rewrite Hopen. simpl.
    rewrite <- !app_assoc. simpl. repeat split.
Qed.

Lemma write_hard_error_closes_witness :
  trace (write env_epipe idle hello).1
  = [CallEncode hello; HookPreWrite; SysWrite 7 hello;
     HookOnClosed (Some (SyscallError "write" (Errno 32)));
     CallDelete 7; SysClose 7; HookAfterWrite hello]
  /\ pending (write env_epipe idle hello).1 = []
  /\ opened (self (write env_epipe idle hello).1) = false.
Proof.
  destruct (write_hard_error_closes env_epipe idle hello hello (Errno 32))
    as (_ & Hpend & Hopen);
    [reflexivity | reflexivity | reflexivity | discriminate |].
  destruct Hopen as (Ht & Ho & _); [reflexivity|].
  repeat split; assumption.
Defined.

(** C8.  On a connection whose [opened] flag is false the task behind
    [AsyncWrite] returns nil and does nothing else: no encoding, no
    syscall, no buffering; the bytes are dropped without an error. *)
Theorem asyncWrite_not_opened (E : Env) (s : world) (itf : bytes) :
  opened (self s) = false ->
  asyncWrite E s itf = (s, None).
Proof. intros Hclosed. unfold asyncWrite. rewrite Hclosed. reflexivity. Qed.

Lemma asyncWrite_not_opened_witness :
  let closed := mkWorld (releaseTCP idle_conn) None [] in
  asyncWrite env_partial closed hello = (closed, None).
Proof.
  intros closed. apply (asyncWrite_not_opened env_partial closed hello).
  reflexivity.
Defined.

(* ------------------------------------------------------------------ *)
(** ** Write interest and the outbound buffer *)

(** C2 (counterexample).  An open connection registered for reading with
    an empty outbound buffer satisfies "Write is in the mask iff the
    outbound buffer is non-empty".  [open] with five bytes on a socket
    whose buffer is full (EAGAIN), or on one that takes only two of them,
    returns nil with bytes in the outbound buffer and the mask still
    read-only: [open] never calls the poller. *)
Lemma open_leaves_write_unarmed_counterexample :
  armed_iff_pending idle
  /\ (open env_eagain idle hello).2 = None
  /\ pending (open env_eagain idle hello).1 = hello
  /\ interest (open env_eagain idle hello).1 = Some ReadOnly
  /\ trace (open env_eagain idle hello).1
     = [HookPreWrite; SysWrite 7 hello; HookAfterWrite hello]
  /\ ~ armed_iff_pending (open env_eagain idle hello).1
  /\ pending (open env_partial idle hello).1 = drop 2 hello
  /\ ~ armed_iff_pending (open env_partial idle hello).1.
Proof.
  unfold armed_iff_pending. vm_compute.
  repeat split; try reflexivity; discriminate.
Qed.

Section WriteKeepsInvariant.
Variable E : Env.
Variable s : world.
Hypothesis Hinv : armed_iff_pending s.
Hypothesis Hmod : poller_Mod E (fd (self s)) = None.

(** Buffering a non-empty remainder into the empty outbound buffer and
    asking the poller for read+write re-establishes the invariant. *)
Lemma arm_after_buffering (p : bytes) (tr : list event) :
  p <> [] ->
  armed_iff_pending
    (ModReadWrite E (bufferOut p (mkWorld (self s) (interest s) tr))).1.
Proof.
  intros Hp. unfold ModReadWrite, armed_iff_pending.
  cbn [self emit bufferOut with_outbound fd trace].
  rewrite Hmod. simpl. rewrite Write_nonempty by assumption. reflexivity.
Qed.

(** Closing keeps it too: a closed connection is deregistered and its
    outbound buffer released. *)
Lemma close_keeps_invariant (tr : list event) (cause : option error) :
  armed_iff_pending
    (loopCloseConn E (mkWorld (self s) (interest s) tr) cause).1.
Proof.
  unfold loopCloseConn, armed_iff_pending. cbn [self emit].
  destruct (opened (self s)); simpl; [reflexivity | exact Hinv].
Qed.

End WriteKeepsInvariant.

(** C2 (amended).  [write] keeps "Write is in the interest mask iff the
    outbound buffer is non-empty" whenever it held before the call, the
    encoded packet is non-empty and the poller accepts the change of
    interest; and every [write] that leaves bytes in a previously empty
    outbound buffer has armed write interest when it returns, if the poller
    accepts.  [open] buffers what the kernel did not take (everything on
    EAGAIN, the rest after a partial write) and makes no poller call: the
    mask is as before, so arming write interest for the open-time write is
    left to its caller. *)
Theorem write_arms_open_leaves_to_caller (E : Env) (s : world) (buf : bytes) :
  (armed_iff_pending s ->
   poller_Mod E (fd (self s)) = None ->
   (codec_Encode E (self s) buf).1 <> [] ->
   armed_iff_pending (write E s buf).1)
  /\ (poller_Mod E (fd (self s)) = None ->
      mixedbuffer.IsEmpty (outboundBuffer (self s)) = true ->
      mixedbuffer.IsEmpty (outboundBuffer (self (write E s buf).1)) = false ->
      interest (write E s buf).1 = Some ReadWrite)
  /\ interest (open E s buf).1 = interest s
  /\ trace (open E s buf).1
     = trace s ++ [HookPreWrite; SysWrite (fd (self s)) buf; HookAfterWrite buf]
  /\ (unix_Write E (fd (self s)) buf = Failed EAGAIN ->
      pending (open E s buf).1 = pending s ++ buf
      /\ (open E s buf).2 = None)
  /\ (forall n : nat,
      unix_Write E (fd (self s)) buf = Wrote n -> (n < length buf)%nat ->
      pending (open E s buf).1 = pending s ++ drop n buf
      /\ (open E s buf).2 = None).
Proof.
  split; [|split; [|split; [|split; [|split]]]].
  - intros Hinv Hmod Hpk. unfold write. cbn [self emit].
    destruct (codec_Encode E (self s) buf) as [packet [err|]]; simpl in Hpk.
    + exact Hinv.
    + cbn [self emit outboundBuffer].
      destruct (mixedbuffer.IsEmpty (outboundBuffer (self s))) eqn:Hemp;
        cbn [negb]; cbn iota.
      * destruct (unix_Write E (fd (self s)) packet) as [n|err].
        -- destruct (Nat.ltb_spec n (length packet)) as [Hlt|Hge].
           ++ unfold emit at 1.
              set (w := ModReadWrite E _).
              assert (Hw : armed_iff_pending w.1).
              { apply arm_after_buffering; [assumption|].
                intros Hnil. apply (f_equal length) in Hnil.
                rewrite length_drop in Hnil. simpl in Hnil. lia. }
              destruct w as [w1 e1]. exact Hw.
           ++ exact Hinv.
        -- destruct (decide (err = EAGAIN)).
           ++ unfold emit at 1.
              set (w := ModReadWrite E _).
              assert (Hw : armed_iff_pending w.1)
                by (apply arm_after_buffering; assumption).
              destruct w as [w1 e1]. exact Hw.
           ++ unfold emit at 1.
              set (w := loopCloseConn E _ _).
              assert (Hw : armed_iff_pending w.1)
                by (apply close_keeps_invariant; assumption).
              destruct w as [w1 e1]. exact Hw.
      * unfold armed_iff_pending in *. simpl.
        rewrite Write_stays_nonempty by assumption.
        rewrite Hinv, Hemp. reflexivity.
  - intros Hmod Hemp. unfold write. cbn [self emit].
    destruct (codec_Encode E (self s) buf) as [packet [err|]].
    + simpl. congruence.
    + cbn [self emit outboundBuffer]. rewrite Hemp. cbn [negb]. cbn iota.
      destruct (unix_Write E (fd (self s)) packet) as [n|err];
        [destruct (n <? length packet)%nat | destruct (decide (err = EAGAIN))];
        try (unfold ModReadWrite;
             cbn [self emit bufferOut with_outbound fd trace];
             rewrite Hmod; reflexivity).
      * simpl. congruence.
      * unfold loopCloseConn. cbn [self emit].
        destruct (opened (self s)); simpl; intros Hne.
        -- vm_compute in Hne. discriminate.
        -- congruence.
  - unfold open. cbn [self emit].
    destruct (unix_Write E (fd (self s)) buf) as [n|err];
      [destruct (n <? length buf)%nat | destruct (decide (err = EAGAIN))];
      reflexivity.
  - unfold open. cbn [self emit].
    destruct (unix_Write E (fd (self s)) buf) as [n|err];
      [destruct (n <? length buf)%nat | destruct (decide (err = EAGAIN))];
      simpl; rewrite <- !app_assoc; reflexivity.
  - intros Hsys. unfold open, pending. cbn [self emit]. rewrite Hsys.
    rewrite decide_True by reflexivity. simpl.
    rewrite Write_contents. split; reflexivity.
  - intros n Hsys Hn. unfold open, pending. cbn [self emit]. rewrite Hsys.
    apply Nat.ltb_lt in Hn. rewrite Hn. simpl.
    rewrite Write_contents. split; reflexivity.
Qed.

Lemma write_arms_open_leaves_to_caller_witness :
  armed_iff_pending (write env_eagain idle hello).1
  /\ armed_iff_pending (write env_partial idle hello).1
  /\ interest (open env_eagain idle hello).1 = Some ReadOnly
  /\ pending (open env_eagain idle hello).1 = hello
  /\ pending (open env_partial idle hello).1 = drop 2 hello.
Proof.
  destruct (write_arms_open_leaves_to_caller env_eagain idle hello)
    as (Hw1 & _ & Hi & _ & Hagain & _).
  destruct (write_arms_open_leaves_to_caller env_partial idle hello)
    as (Hw2 & _ & _ & _ & _ & Hpart).
  split; [apply Hw1; [reflexivity | reflexivity | discriminate]|].
  split; [apply Hw2; [reflexivity | reflexivity | discriminate]|].
  split; [exact Hi|].
  split; [apply Hagain; reflexivity|].
  apply (Hpart 2%nat); [reflexivity | simpl; lia].
Defined.

(* ------------------------------------------------------------------ *)
(** ** The sendmsg adapter *)

Section SendMsgsFacts.
Import io.

(** The loop of [SendMsgs] fills the array slot by slot. *)
Lemma fill_map (iovs : list bytes) : forall filled : list Iovec,
  fill (length filled) iovs
       (filled ++ replicate (length iovs) (mkIovec Nil 0))
  = filled ++ map iovec_of iovs.
Proof.
  induction iovs as [|iov rest IH]; intros filled; [reflexivity|].
  cbn [fill length replicate map].
  assert (Hslot : forall f (x : Iovec) tl,
             alter f (length filled) (filled ++ x :: tl) = filled ++ f x :: tl).
  { intros f x tl.
    replace (length filled) with (length filled + 0)%nat at 1 by lia.
    rewrite alter_app_r. reflexivity. }
  replace (if (0 <? length iov)%nat
           then alter (SetBase (AddrOf iov)) (length filled)
                  (alter (SetLen (Z.of_nat (length iov))) (length filled)
                     (filled ++ mkIovec Nil 0 :: replicate (length rest) (mkIovec Nil 0)))
           else alter (SetBase AddrZero) (length filled)
                  (alter (SetLen (Z.of_nat (length iov))) (length filled)
                     (filled ++ mkIovec Nil 0 :: replicate (length rest) (mkIovec Nil 0))))
    with ((filled ++ [iovec_of iov]) ++ replicate (length rest) (mkIovec Nil 0)).
  - replace (S (length filled)) with (length (filled ++ [iovec_of iov]))
      by (rewrite length_app; simpl; lia).
    rewrite IH, <- app_assoc. reflexivity.
  - rewrite <- app_assoc. simpl. unfold iovec_of.
    destruct (0 <? length iov)%nat; rewrite !Hslot; reflexivity.
Qed.

Lemma fill_all (iovs : list bytes) :
  fill 0 iovs (replicate (length iovs) (mkIovec Nil 0)) = map iovec_of iovs.
Proof. apply (fill_map iovs []). Qed.

Lemma uint64_small (n : nat) : fits_int n -> uint64 (Z.of_nat n) = Z.of_nat n.
Proof. unfold fits_int, uint64. intros Hn. apply Z.mod_small. lia. Qed.

Lemma int_small (x : Z) : 0 <= x < 2 ^ 63 -> int x = x.
Proof.
  intros Hx. unfold int.
  rewrite Z.mod_small by lia. lia.
Qed.

(** An iovec built from a slice designates exactly that slice. *)
Lemma covered_iovec_of (iov : bytes) :
  fits_int (length iov) -> covered (iovec_of iov) = iov.
Proof.
  intros Hfit. unfold covered, iovec_of. cbn [Base Len].
  destruct iov as [|b iov']; [reflexivity|].
  change (0 <? length (b :: iov'))%nat with true. cbn iota.
  rewrite uint64_small by assumption.
  rewrite Nat2Z.id. apply take_ge. reflexivity.
Qed.

(** [SendMsgs] on a non-empty list, with the loop carried out. *)
Lemma SendMsgs_nonempty (K : kernel) (fd : Z) (iovs : list bytes) :
  iovs <> [] ->
  SendMsgs K fd iovs
  = let iovecs := map iovec_of iovs in
    let msg := mkMsghdr iovecs (uint64 (Z.of_nat (length iovecs))) in
    let call := mkSyscall SYS_SENDMSG (uintptr fd) msg (uintptr MSG_ZEROCOPY) in
    let '(r, _, errno) := K call in
    if negb (errno =? 0) then ([call], Returns (0, Some (Errno errno)))
    else ([call], Returns (int r, None)).
Proof.
  intros Hne. unfold SendMsgs. rewrite fill_all.
  destruct iovs; [congruence | reflexivity].
Qed.

End SendMsgsFacts.

(** C7.  For a non-empty list of slices, [SendMsgs] makes exactly one
    sendmsg system call; its message header carries one iovec per input
    slice, in order, each designating the bytes of its slice; the flags
    argument is MSG_ZEROCOPY; and the call returns the byte count the
    kernel reports on success, or [(0, errno)] on failure. *)
Theorem SendMsgs_one_zero_copy_sendmsg
        (K : io.kernel) (fd : Z) (iovs : list bytes) :
  iovs <> [] ->
  io.fits_int (length iovs) ->
  Forall (fun iov => io.fits_int (length iov)) iovs ->
  exists call : io.syscall,
    (io.SendMsgs K fd iovs).1 = [call]
    /\ io.trap call = io.SYS_SENDMSG
    /\ io.a1 call = io.uintptr fd
    /\ io.a3 call = io.MSG_ZEROCOPY
    /\ io.Iovlen (io.a2 call) = Z.of_nat (length iovs)
    /\ length (io.Iov (io.a2 call)) = length iovs
    /\ io.Len <$> io.Iov (io.a2 call)
       = (fun iov => Z.of_nat (length iov)) <$> iovs
    /\ io.covered <$> io.Iov (io.a2 call) = iovs
    /\ (forall r r2, K call = (r, r2, 0) -> 0 <= r < 2 ^ 63 ->
        (io.SendMsgs K fd iovs).2 = io.Returns (r, None))
    /\ (forall r r2 errno, K call = (r, r2, errno) -> errno <> 0 ->
        (io.SendMsgs K fd iovs).2 = io.Returns (0, Some (Errno errno))).
Proof.
  intros Hne Hn Hall. rewrite !SendMsgs_nonempty by assumption.
  cbv zeta.
  set (call := io.mkSyscall _ _ _ _).
  exists call.
  assert (Hlen : length (map io.iovec_of iovs) = length iovs)
    by apply length_map.
  split; [destruct (K call) as [[r r2] errno], (errno =? 0); reflexivity|].
  split; [reflexivity|]. split; [reflexivity|]. split; [reflexivity|].
  split; [simpl; rewrite Hlen; apply uint64_small; assumption|].
  split; [exact Hlen|].
  split.
  { simpl. rewrite <- list_fmap_compose.
    apply Forall_fmap_ext_1. eapply Forall_impl; [exact Hall|].
    intros x Hx. simpl. apply uint64_small. assumption. }
  split.
  { simpl. rewrite <- list_fmap_compose.
    rewrite <- (list_fmap_id iovs) at 2.
    apply Forall_fmap_ext_1. eapply Forall_impl; [exact Hall|].
    intros x Hx. simpl. apply covered_iovec_of. assumption. }
  split.
  - intros r r2 HK Hr. rewrite HK. simpl.
    rewrite int_small by assumption. reflexivity.
  - intros r r2 errno HK Herr. rewrite HK.
    destruct (Z.eqb_spec errno 0); [contradiction | reflexivity].
Qed.

Lemma SendMsgs_one_zero_copy_sendmsg_witness :
  (exists call : io.syscall,
      (io.SendMsgs kernel_takes_all 7 three_slices).1 = [call]
      /\ io.a3 call = io.MSG_ZEROCOPY
      /\ io.Iovlen (io.a2 call) = 3
      /\ io.covered <$> io.Iov (io.a2 call) = three_slices)
  /\ (io.SendMsgs kernel_takes_all 7 three_slices).2 = io.Returns (7, None)
  /\ (io.SendMsgs kernel_refuses 7 three_slices).2
     = io.Returns (0, Some (Errno 105)).
Proof.
  assert (Hfits : Forall (fun iov : bytes => io.fits_int (length iov)) three_slices)
    by (repeat constructor; unfold io.fits_int; simpl; lia).
  assert (Hn : io.fits_int (length three_slices))
    by (unfold io.fits_int; simpl; lia).
  assert (Hne : three_slices <> []) by discriminate.
  destruct (SendMsgs_one_zero_copy_sendmsg kernel_takes_all 7 three_slices
              Hne Hn Hfits)
    as (call & Hone & _ & _ & Hflag & Hcount & _ & _ & Hcov & Hok & _).
  destruct (SendMsgs_one_zero_copy_sendmsg kernel_refuses 7 three_slices
              Hne Hn Hfits)
    as (call' & _ & _ & _ & _ & _ & _ & _ & _ & _ & Hfail).
  split; [|split].
  - exists call. repeat split; assumption.
  - apply (Hok 7 0); [|lia].
    unfold kernel_takes_all.
    assert (Hlens : io.Len <$> io.Iov (io.a2 call) = [5; 0; 2]).
    { injection Hone as <-. reflexivity. }
    rewrite Hlens. reflexivity.
  - apply (Hfail (2 ^ 64 - 1) 0 105); [reflexivity | lia].
Defined.

(** C9.  With an empty list [SendMsgs] panics: [iovecs] has length zero and
    [&iovecs[0]] is an index out of range, before any system call is made.
    With a non-empty list that expression is in range and the call
    returns. *)
Theorem SendMsgs_empty_panics (K : io.kernel) (fd : Z) (iovs : list bytes) :
  (iovs = [] ->
   io.SendMsgs K fd iovs
   = ([], io.Panics "runtime error: index out of range [0] with length 0"))
  /\ (iovs <> [] ->
      exists call res, io.SendMsgs K fd iovs = ([call], io.Returns res)).
Proof.
  split.
  - intros ->. reflexivity.
  - intros Hne. rewrite SendMsgs_nonempty by assumption. cbv zeta.
    set (call := io.mkSyscall _ _ _ _).
    exists call.
    destruct (K call) as [[r r2] errno], (errno =? 0); simpl;
      eexists; reflexivity.
Qed.

Lemma SendMsgs_empty_panics_witness :
  io.SendMsgs kernel_takes_all 7 []
  = ([], io.Panics "runtime error: index out of range [0] with length 0")
  /\ exists call res,
      io.SendMsgs kernel_takes_all 7 three_slices = ([call], io.Returns res).
Proof.
  split.
  - apply (SendMsgs_empty_panics kernel_takes_all 7 []). reflexivity.
  - apply (SendMsgs_empty_panics kernel_takes_all 7 three_slices). discriminate.
Defined.

(* ------------------------------------------------------------------ *)
(** ** Consuming from the inbound ring *)

Section DiscardFacts.
Variable rb : RingBuffer.
Hypothesis Hwf : wf rb.
Variable k : Z.
Hypothesis Hk : 0 <= k.

Lemma Discard_Length : Length (Discard rb k).1 = Length rb - Z.min k (Length rb).
Proof.
  pose proof (Length_nonneg _ Hwf).
  unfold Discard. simpl. unfold Length at 1. simpl.
  apply Length_advance; [assumption | lia].
Qed.

(** A ring stays well-formed when bytes are discarded from it. *)
Lemma Discard_wf : wf (Discard rb k).1.
Proof.
  pose proof (Length_nonneg _ Hwf) as Hn. pose proof Discard_Length as HL.
  pose proof Hwf as [Hs Hb Hr Hw Hl].
  constructor; try assumption.
  - unfold Discard. simpl. apply Z.mod_pos_bound. lia.
  - change (size (Discard rb k).1) with (size rb). lia.
Qed.

(** The read position after a discard. *)
Lemma Discard_cell (i : Z) :
  (r (Discard rb k).1 + i) mod size rb
  = (r rb + (Z.min k (Length rb) + i)) mod size rb.
Proof.
  pose proof Hwf as [Hs _ _ _ _].
  unfold Discard. simpl.
  replace (2 * size rb) with (size rb * 2) by lia.
  rewrite <- Zplus_mod_idemp_l.
  rewrite Z.rem_mul_r by lia.
  rewrite (Z.mul_comm (size rb)), Z_mod_plus_full, Zmod_mod.
  rewrite Zplus_mod_idemp_l. f_equal. lia.
Qed.

(** Discarding drops from the front of the FIFO contents. *)
Lemma Discard_contents :
  contents (Discard rb k).1 = drop (Z.to_nat k) (contents rb).
Proof.
  pose proof (Length_nonneg _ Hwf) as Hn. pose proof Discard_Length as HL.
  pose proof (contents_length _ Hwf) as Hlen.
  pose proof (contents_length _ Discard_wf) as Hlen'.
  set (d := Z.min k (Length rb)) in *.
  assert (Hdrop : drop (Z.to_nat k) (contents rb) = drop (Z.to_nat d) (contents rb)).
  { destruct (Z_le_gt_dec k (Length rb)) as [Hle|Hgt].
    - replace d with k by lia. reflexivity.
    - rewrite !drop_ge by lia. reflexivity. }
  rewrite Hdrop. apply list_eq. intros j.
  rewrite lookup_drop.
  destruct (Z_lt_ge_dec (Z.of_nat j) (Length rb - d)) as [Hlt|Hge].
  - rewrite <- (Nat2Z.id j) at 1.
    rewrite (contents_lookup _ Discard_wf) by lia.
    change (size (Discard rb k).1) with (size rb).
    change (buf (Discard rb k).1) with (buf rb).
    rewrite Discard_cell. fold d.
    replace (Z.to_nat d + j)%nat with (Z.to_nat (d + Z.of_nat j)) by lia.
    rewrite (contents_lookup _ Hwf) by lia. reflexivity.
  - rewrite !lookup_ge_None_2 by lia. reflexivity.
Qed.

End DiscardFacts.

(* ------------------------------------------------------------------ *)
(** ** Reading, shifting and resetting, composed *)

(** Putting back the transit buffer a connection already has changes
    nothing. *)
Lemma with_transit_same (c : conn) : with_transit c (transitBuffer c) = c.
Proof. destruct c; reflexivity. Qed.

(** [Read] writes no field but the transit buffer, and only to store the
    bytes it returns. *)
Lemma Read_frame (c : conn) :
  (Read c).1 = with_transit c (transitBuffer (Read c).1)
  /\ (transitBuffer (Read c).1 = transitBuffer c
      \/ transitBuffer (Read c).1 = Some (Read c).2).
Proof.
  unfold Read, ByteBuffer.
  destruct (PeekAll (inboundBuffer c)) as [head [tail|]]; simpl.
  - destruct (transitBuffer c); simpl; split; auto.
  - split; [symmetry; apply with_transit_same | auto].
Qed.

(** A second [Read] finds what the first one found. *)
Lemma Read_again (c : conn) : Read (Read c).1 = Read c.
Proof.
  unfold Read, ByteBuffer.
  destruct (PeekAll (inboundBuffer c)) as [head [tail|]] eqn:Hpeek; simpl.
  - destruct (transitBuffer c) eqn:Htb; simpl; rewrite Hpeek; simpl;
      reflexivity.
  - rewrite Hpeek. reflexivity.
Qed.

Lemma ReadN_frame (c : conn) (n : Z) :
  (ReadN c n).1 = with_transit c (transitBuffer (ReadN c n).1)
  /\ (transitBuffer (ReadN c n).1 = transitBuffer c
      \/ transitBuffer (ReadN c n).1 = Some (ReadN c n).2.2).
Proof.
  unfold ReadN. destruct (_ || _).
  - pose proof (Read_frame c) as [Hf Ht].
    destruct (Read c) as [c' b]; simpl in *. auto.
  - destruct (Peek (inboundBuffer c) n) as [head [tail|]]; simpl.
    + split; auto.
    + split; [symmetry; apply with_transit_same | auto].
Qed.

Lemma ReadN_again (c : conn) (n : Z) : ReadN (ReadN c n).1 n = ReadN c n.
Proof.
  unfold ReadN.
  destruct ((Length (inboundBuffer c) <=? n) || (n <=? 0)) eqn:Hall.
  - pose proof (Read_again c) as Hr. pose proof (Read_frame c) as [Hf _].
    destruct (Read c) as [c' b] eqn:HRead; simpl in *.
    assert (Hin : inboundBuffer c' = inboundBuffer c) by (rewrite Hf; reflexivity).
    rewrite Hin, Hall, Hr. reflexivity.
  - destruct (Peek (inboundBuffer c) n) as [head [tail|]] eqn:Hpeek; simpl.
    + rewrite Hall, Hpeek. destruct (transitBuffer c); reflexivity.
    + rewrite Hall, Hpeek. reflexivity.
Qed.

Section InboundComposition.
Variable c : conn.
Hypothesis Hwf : wf (inboundBuffer c).

(** What [ReadN] returns, in one formula. *)
Lemma ReadN_result (n : Z) :
  (ReadN c n).2
  = if (BufferLength c <=? n) || (n <=? 0)
    then (BufferLength c, contents (inboundBuffer c))
    else (n, take (Z.to_nat n) (contents (inboundBuffer c))).
Proof.
  unfold ReadN, BufferLength.
  destruct ((Length (inboundBuffer c) <=? n) || (n <=? 0)) eqn:Hall.
  - pose proof (Read_all c Hwf) as [_ Hd].
    destruct (Read c) as [c' b]; simpl in *. subst b. reflexivity.
  - apply orb_false_iff in Hall as [H1 H2].
    rewrite <- (Peek_prefix c Hwf n) by lia.
    destruct (Peek (inboundBuffer c) n) as [head [tail|]]; simpl.
    + destruct (transitBuffer c); reflexivity.
    + rewrite app_nil_r. reflexivity.
Qed.

Lemma ShiftN_inbound (k : Z) :
  inboundBuffer (ShiftN c k).1 = (Discard (inboundBuffer c) k).1.
Proof. unfold ShiftN. simpl. destruct (transitBuffer c); reflexivity. Qed.

Lemma ReadN_inbound (n : Z) : inboundBuffer (ReadN c n).1 = inboundBuffer c.
Proof. destruct (ReadN_frame c n) as [Hf _]. rewrite Hf. reflexivity. Qed.

End InboundComposition.

(** X1.  [Read] is a peek at everything: it returns all buffered bytes in
    FIFO order, leaves the ring and every field but the transit buffer as
    they were, stores in the transit buffer nothing but the bytes it
    returns, and a second [Read] gives the same bytes and the same
    connection. *)
Theorem Read_is_a_repeatable_peek (c : conn) :
  wf (inboundBuffer c) ->
  (Read c).2 = contents (inboundBuffer c)
  /\ BufferLength (Read c).1 = BufferLength c
  /\ (Read c).1 = with_transit c (transitBuffer (Read c).1)
  /\ (transitBuffer (Read c).1 = transitBuffer c
      \/ transitBuffer (Read c).1 = Some (Read c).2)
  /\ Read (Read c).1 = Read c.
Proof.
  intros Hwf. pose proof (Read_all c Hwf) as [Hin Hd].
  pose proof (Read_frame c) as [Hf Ht].
  split; [assumption|].
  split; [unfold BufferLength; rewrite Hin; reflexivity|].
  split; [assumption|]. split; [assumption|]. apply Read_again.
Qed.

Lemma Read_is_a_repeatable_peek_witness :
  (Read wrapped_conn).2 = [Byte.x64; Byte.x61; Byte.x62]
  /\ transitBuffer (Read wrapped_conn).1 = Some [Byte.x64; Byte.x61; Byte.x62]
  /\ Read (Read wrapped_conn).1 = Read wrapped_conn.
Proof.
  destruct (Read_is_a_repeatable_peek wrapped_conn)
    as (Hd & _ & _ & Ht & Hagain); [apply wfb_wf; reflexivity|].
  split; [rewrite Hd; reflexivity|].
  split; [|exact Hagain].
  destruct Ht as [Ht|Ht]; [discriminate Ht|].
  rewrite Ht, Hd. reflexivity.
Defined.

(** X2.  [ReadN] is a peek too: whatever [n] is, it writes no field but
    the transit buffer, and there only the bytes it returns; asking again
    with the same [n] gives the same answer and the same connection; and
    the count it returns is the length of the slice it returns. *)
Theorem ReadN_is_a_repeatable_peek (c : conn) (n : Z) :
  (ReadN c n).1 = with_transit c (transitBuffer (ReadN c n).1)
  /\ (transitBuffer (ReadN c n).1 = transitBuffer c
      \/ transitBuffer (ReadN c n).1 = Some (ReadN c n).2.2)
  /\ ReadN (ReadN c n).1 n = ReadN c n
  /\ (wf (inboundBuffer c) ->
      (ReadN c n).2.1 = Z.of_nat (length (ReadN c n).2.2)).
Proof.
  pose proof (ReadN_frame c n) as [Hf Ht].
  split; [assumption|]. split; [assumption|].
  split; [apply ReadN_again|].
  intros Hwf. rewrite (ReadN_result c Hwf).
  pose proof (contents_length _ Hwf) as Hlen.
  pose proof (Length_nonneg _ Hwf) as Hn. unfold BufferLength.
  destruct ((Length (inboundBuffer c) <=? n) || (n <=? 0)) eqn:Hall; simpl.
  - lia.
  - apply orb_false_iff in Hall as [H1 H2].
    rewrite length_take. lia.
Qed.

Lemma ReadN_is_a_repeatable_peek_witness :
  (ReadN wrapped_conn 2).2 = (2, [Byte.x64; Byte.x61])
  /\ ReadN (ReadN wrapped_conn 2).1 2 = ReadN wrapped_conn 2
  /\ (ReadN wrapped_conn 2).2.1 = Z.of_nat (length (ReadN wrapped_conn 2).2.2).
Proof.
  destruct (ReadN_is_a_repeatable_peek wrapped_conn 2)
    as (_ & _ & Hagain & Hhave).
  split; [reflexivity|]. split; [exact Hagain|].
  apply Hhave. apply wfb_wf. reflexivity.
Defined.

(** X3.  After [ShiftN(k)] with [k >= 0] the ring is still well-formed and
    what [Read] returns is what was buffered before without its first [k]
    bytes (nothing at all when [k] is the buffered length or more). *)
Theorem ShiftN_then_Read (c : conn) (k : Z) :
  wf (inboundBuffer c) ->
  0 <= k ->
  wf (inboundBuffer (ShiftN c k).1)
  /\ (Read (ShiftN c k).1).2 = drop (Z.to_nat k) (contents (inboundBuffer c))
  /\ (BufferLength c <= k -> (Read (ShiftN c k).1).2 = []).
Proof.
  intros Hwf Hk.
  assert (Hwf' : wf (inboundBuffer (ShiftN c k).1))
    by (rewrite ShiftN_inbound; apply Discard_wf; assumption).
  assert (Hread : (Read (ShiftN c k).1).2
                  = drop (Z.to_nat k) (contents (inboundBuffer c))).
  { destruct (Read_all _ Hwf') as [_ Hd]. rewrite Hd, ShiftN_inbound.
    apply Discard_contents; assumption. }
  split; [assumption|]. split; [assumption|].
  intros Hall. rewrite Hread. apply drop_ge.
  pose proof (contents_length _ Hwf). unfold BufferLength in Hall. lia.
Qed.

Lemma ShiftN_then_Read_witness :
  (Read (ShiftN wrapped_conn 1).1).2 = [Byte.x61; Byte.x62]
  /\ (Read (ShiftN wrapped_conn 3).1).2 = []
  /\ (Read (ShiftN wrapped_conn 9).1).2 = [].
Proof.
  assert (Hwf : wf (inboundBuffer wrapped_conn)) by (apply wfb_wf; reflexivity).
  destruct (ShiftN_then_Read wrapped_conn 1 Hwf) as (_ & H1 & _); [lia|].
  destruct (ShiftN_then_Read wrapped_conn 3 Hwf) as (_ & _ & H3); [lia|].
  destruct (ShiftN_then_Read wrapped_conn 9 Hwf) as (_ & _ & H9); [lia|].
  split; [rewrite H1; reflexivity|].
  split; [apply H3 | apply H9]; vm_compute; discriminate.
Defined.

(** X4.  The framing idiom [have, data := ReadN(n); ShiftN(have)] loses
    nothing and repeats nothing, for every [n]: [data] followed by what is
    still buffered afterwards is what was buffered before, and the buffer
    is shorter by [have]. *)
Theorem ReadN_then_ShiftN_splits (c : conn) (n : Z) :
  wf (inboundBuffer c) ->
  let have := (ReadN c n).2.1 in
  let data := (ReadN c n).2.2 in
  let after := (ShiftN (ReadN c n).1 have).1 in
  data ++ (Read after).2 = contents (inboundBuffer c)
  /\ BufferLength after = BufferLength c - have
  /\ 0 <= have <= BufferLength c.
Proof.
  intros Hwf have data after.
  pose proof (contents_length _ Hwf) as Hlen.
  pose proof (Length_nonneg _ Hwf) as Hn.
  assert (Hwf1 : wf (inboundBuffer (ReadN c n).1))
    by (rewrite ReadN_inbound; assumption).
  assert (Hhave : 0 <= have <= BufferLength c
                  /\ data = take (Z.to_nat have) (contents (inboundBuffer c))).
  { unfold have, data. rewrite (ReadN_result c Hwf). unfold BufferLength.
    destruct ((Length (inboundBuffer c) <=? n) || (n <=? 0)) eqn:Hall; simpl.
    - split; [lia|]. symmetry. apply take_ge. lia.
    - apply orb_false_iff in Hall as [H1 H2]. split; [lia | reflexivity]. }
  destruct Hhave as [Hrange Hdata].
  assert (Hrest : (Read after).2
                  = drop (Z.to_nat have) (contents (inboundBuffer c))).
  { unfold after.
    assert (Hwf2 : wf (inboundBuffer (ShiftN (ReadN c n).1 have).1))
      by (rewrite ShiftN_inbound; apply Discard_wf; [assumption | lia]).
    destruct (Read_all _ Hwf2) as [_ Hd]. rewrite Hd, ShiftN_inbound.
    rewrite Discard_contents by (assumption || lia).
    rewrite ReadN_inbound. reflexivity. }
  split; [rewrite Hdata, Hrest; apply take_drop|].
  split; [|assumption].
  unfold after. rewrite (ShiftN_length _ Hwf1) by lia.
  unfold BufferLength in *. rewrite ReadN_inbound. lia.
Qed.

Lemma ReadN_then_ShiftN_splits_witness :
  let have := (ReadN wrapped_conn 2).2.1 in
  let after := (ShiftN (ReadN wrapped_conn 2).1 have).1 in
  (ReadN wrapped_conn 2).2.2 ++ (Read after).2 = [Byte.x64; Byte.x61; Byte.x62]
  /\ BufferLength after = 1.
Proof.
  destruct (ReadN_then_ShiftN_splits wrapped_conn 2) as (Hsplit & Hlen & _);
    [apply wfb_wf; reflexivity|].
  split; [rewrite Hsplit; reflexivity | rewrite Hlen; reflexivity].
Defined.

(** X5.  Two shifts are one: for counts that are not negative,
    [ShiftN(a)] followed by [ShiftN(b)] leaves the connection exactly as
    [ShiftN(a + b)] does. *)
Theorem ShiftN_twice (c : conn) (a b : Z) :
  wf (inboundBuffer c) ->
  0 <= a -> 0 <= b ->
  (ShiftN (ShiftN c a).1 b).1 = (ShiftN c (a + b)).1.
Proof.
  intros Hwf Ha Hb.
  pose proof (Length_nonneg _ Hwf) as Hn.
  pose proof (Discard_Length _ Hwf a Ha) as HL.
  pose proof Hwf as [Hs _ _ _ _].
  assert (Hring : (Discard (Discard (inboundBuffer c) a).1 b).1
                  = (Discard (inboundBuffer c) (a + b)).1).
  { unfold Discard at 1 3. cbn [fst buf size r w]. f_equal.
    rewrite HL.
    change (r (Discard (inboundBuffer c) a).1)
      with ((r (inboundBuffer c) + Z.min a (Length (inboundBuffer c)))
              mod (2 * size (inboundBuffer c))).
    rewrite Zplus_mod_idemp_l. f_equal. lia. }
  unfold ShiftN at 1 3. cbn [fst].
  rewrite (ShiftN_inbound c), Hring.
  unfold ShiftN. cbn [fst].
  destruct c as [fd0 sa0 ctx0 op0 la0 ra0 rb0 [tb|] ob0]; reflexivity.
Qed.

Lemma ShiftN_twice_witness :
  (ShiftN (ShiftN wrapped_conn 1).1 1).1 = (ShiftN wrapped_conn 2).1
  /\ (ShiftN (ShiftN wrapped_conn 2).1 5).1 = (ShiftN wrapped_conn 7).1.
Proof.
  assert (Hwf : wf (inboundBuffer wrapped_conn)) by (apply wfb_wf; reflexivity).
  split.
  - apply (ShiftN_twice wrapped_conn 1 1 Hwf); lia.
  - apply (ShiftN_twice wrapped_conn 2 5 Hwf); lia.
Defined.

(** X6.  After [ResetBuffer] there is nothing to read: [BufferLength] is
    0, [Read] returns no bytes and [ReadN] returns [(0, no bytes)] for
    every [n]; a transit buffer that was present is still present, and
    empty. *)
Theorem ResetBuffer_empties (c : conn) (n : Z) :
  wf (inboundBuffer c) ->
  BufferLength (ResetBuffer c) = 0
  /\ (Read (ResetBuffer c)).2 = []
  /\ (ReadN (ResetBuffer c) n).2 = (0, [])
  /\ transitBuffer (ResetBuffer c) = bytebuffer.Reset <$> transitBuffer c.
Proof.
  intros Hwf. pose proof Hwf as [Hs Hb _ _ _].
  assert (Hin : inboundBuffer (ResetBuffer c) = Reset (inboundBuffer c)).
  { unfold ResetBuffer. simpl. destruct (transitBuffer c); reflexivity. }
  assert (Hlen : Length (Reset (inboundBuffer c)) = 0).
  { unfold Length, Reset. simpl. apply Z.mod_0_l. lia. }
  assert (Hwf' : wf (inboundBuffer (ResetBuffer c))).
  { rewrite Hin. constructor; try assumption; simpl; try lia;
      rewrite Hlen; lia. }
  assert (Hempty : contents (inboundBuffer (ResetBuffer c)) = []).
  { rewrite Hin. unfold contents. rewrite Hlen. reflexivity. }
  split; [unfold BufferLength; rewrite Hin; assumption|].
  split; [destruct (Read_all _ Hwf') as [_ Hd]; rewrite Hd; assumption|].
  split.
  - rewrite (ReadN_result _ Hwf'). unfold BufferLength.
    rewrite Hempty, Hin, Hlen.
    destruct ((0 <=? n) || (n <=? 0)) eqn:Hn; [reflexivity|].
    apply orb_false_iff in Hn. lia.
  - unfold ResetBuffer. simpl.
    destruct (transitBuffer c) eqn:Htb; simpl; rewrite ?Htb; reflexivity.
Qed.

Lemma ResetBuffer_empties_witness :
  BufferLength wrapped_conn = 3
  /\ BufferLength (ResetBuffer wrapped_conn) = 0
  /\ (ReadN (ResetBuffer wrapped_conn) 2).2 = (0, [])
  /\ transitBuffer (ResetBuffer wrapped_conn) = Some [].
Proof.
  destruct (ResetBuffer_empties wrapped_conn 2) as (Hl & _ & Hn & Ht);
    [apply wfb_wf; reflexivity|].
  split; [reflexivity|]. split; [exact Hl|]. split; [exact Hn | exact Ht].
Defined.

(* ------------------------------------------------------------------ *)
(** ** More on the write paths *)

(** The six ways through [write]: the codec refuses; the kernel takes part
    of the packet; all of it; reports EAGAIN; reports another error; or
    there is a backlog and the kernel is not asked. *)
Ltac write_cases E s buf packet Hemp :=
  unfold write; cbn [self emit];
  destruct (codec_Encode E (self s) buf) as [packet [?err|]];
  [| cbn [self emit outboundBuffer];
     destruct (mixedbuffer.IsEmpty (outboundBuffer (self s))) eqn:Hemp;
     cbn [negb]; cbn iota;
     [destruct (unix_Write E (fd (self s)) packet) as [?n|?err];
      [match goal with
       | |- context [(?a <? length packet)%nat] =>
           destruct (Nat.ltb_spec a (length packet))
       end
      |match goal with
       | |- context [decide (?e = EAGAIN)] => destruct (decide (e = EAGAIN))
       end]
     |]].

Ltac unfold_steps :=
  unfold ModReadWrite, loopCloseConn, pending;
  cbn [self emit bufferOut with_outbound fd trace interest outboundBuffer fst snd].

(** X7.  [open] returns an error exactly when the kernel fails with an
    error other than EAGAIN, and then it is the kernel's error itself and
    the connection is as before: not closed, nothing buffered.  When the
    kernel takes [n] bytes, exactly the bytes after the first [n] are
    appended to the outbound buffer (none if it took them all).  In no
    case does [open] write any field but the outbound buffer. *)
Theorem open_surfaces_only_hard_errors (E : Env) (s : world) (buf : bytes) :
  (forall e, (open E s buf).2 = Some e
             <-> unix_Write E (fd (self s)) buf = Failed e /\ e <> EAGAIN)
  /\ (forall e, unix_Write E (fd (self s)) buf = Failed e -> e <> EAGAIN ->
      self (open E s buf).1 = self s)
  /\ (forall n, unix_Write E (fd (self s)) buf = Wrote n ->
      pending (open E s buf).1 = pending s ++ drop n buf
      /\ (open E s buf).2 = None)
  /\ self (open E s buf).1
     = with_outbound (self s) (outboundBuffer (self (open E s buf).1)).
Proof.
  assert (Hsame : forall c : conn, c = with_outbound c (outboundBuffer c))
    by (intros []; reflexivity).
  unfold open. cbn [self emit].
  destruct (unix_Write E (fd (self s)) buf) as [n|err] eqn:Hsys.
  - destruct (Nat.ltb_spec n (length buf)) as [Hlt|Hge]; unfold_steps.
    + split; [intros e; split; [discriminate | intros [? _]; discriminate]|].
      split; [discriminate|].
      split; [|reflexivity].
      intros n' [= <-]. rewrite Write_contents. auto.
    + split; [intros e; split; [discriminate | intros [? _]; discriminate]|].
      split; [discriminate|].
      split; [|apply Hsame].
      intros n' [= <-]. rewrite drop_ge, app_nil_r by lia. auto.
  - destruct (decide (err = EAGAIN)) as [->|Hne]; unfold_steps.
    + split; [intros e; split; [discriminate | intros [[= <-] Hne]; congruence]|].
      split; [intros e [= <-] Hne; congruence|].
      split; [discriminate | reflexivity].
    + split; [intros e; split; [intros [= <-]; auto | intros [[= <-] _]; reflexivity]|].
      split; [reflexivity|].
      split; [discriminate | apply Hsame].
Qed.

Lemma open_surfaces_only_hard_errors_witness :
  (open env_epipe idle hello).2 = Some (Errno 32)
  /\ self (open env_epipe idle hello).1 = idle_conn
  /\ pending (open env_partial idle hello).1 = drop 2 hello.
Proof.
  destruct (open_surfaces_only_hard_errors env_epipe idle hello)
    as (Herr & Hsame & _).
  destruct (open_surfaces_only_hard_errors env_partial idle hello)
    as (_ & _ & Hpart & _).
  split; [apply Herr; split; [reflexivity | discriminate]|].
  split; [apply (Hsame (Errno 32)); [reflexivity | discriminate]|].
  apply (Hpart 2%nat). reflexivity.
Defined.

(** X8.  Whatever happens in [write], what is pending afterwards is what
    was pending before followed by a (possibly empty) tail of the encoded
    packet: bytes already queued are never dropped, reordered or
    overtaken. *)
Theorem write_appends_a_tail (E : Env) (s : world) (buf : bytes) :
  exists k : nat,
    pending (write E s buf).1
    = pending s ++ drop k (codec_Encode E (self s) buf).1.
Proof.
  write_cases E s buf packet Hemp; unfold_steps.
  - exists (length packet). rewrite drop_all, app_nil_r. reflexivity.
  - exists n. destruct (poller_Mod E (fd (self s))); simpl;
      apply Write_contents.
  - exists (length packet). rewrite drop_all, app_nil_r. reflexivity.
  - exists 0%nat. destruct (poller_Mod E (fd (self s))); simpl;
      apply Write_contents.
  - exists (length packet). rewrite drop_all, app_nil_r.
    rewrite (IsEmpty_contents _ Hemp).
    destruct (opened (self s)); simpl; [reflexivity|].
    apply IsEmpty_contents. assumption.
  - exists 0%nat. simpl. apply Write_contents.
Qed.



(** X10.  When nothing is pending and the kernel takes the whole packet,
    [write] is done: it returns nil, the connection and the interest mask
    are as before, and the poller is not called. *)
Theorem write_all_taken (E : Env) (s : world) (buf packet : bytes) (n : nat) :
  codec_Encode E (self s) buf = (packet, None) ->
  mixedbuffer.IsEmpty (outboundBuffer (self s)) = true ->
  unix_Write E (fd (self s)) packet = Wrote n ->
  (length packet <= n)%nat ->
  write E s buf
  = (mkWorld (self s) (interest s)
             (trace s ++ [CallEncode buf; HookPreWrite;
                          SysWrite (fd (self s)) packet; HookAfterWrite buf]),
     None).
Proof.
  intros Henc Hemp Hsys Hn. unfold write. cbn [self emit]. rewrite Henc.
  cbn [self emit outboundBuffer]. rewrite Hemp. cbn [negb]. cbn iota.
  rewrite Hsys. apply Nat.ltb_ge in Hn. rewrite Hn.
  unfold emit. cbn [self interest trace]. rewrite <- !app_assoc. reflexivity.
Qed.

Lemma write_all_taken_witness :
  write env_takes_all idle hello
  = (mkWorld idle_conn (Some ReadOnly)
             [CallEncode hello; HookPreWrite; SysWrite 7 hello;
              HookAfterWrite hello],
     None).
Proof.
  apply (write_all_taken env_takes_all idle hello hello 5);
    [reflexivity | reflexivity | reflexivity | simpl; lia].
Defined.

(** One [write] behind a backlog, for a codec that always encodes. *)
Lemma write_behind_backlog (E : Env) (enc : bytes -> bytes) (s : world)
      (buf : bytes) :
  (forall c b, codec_Encode E c b = (enc b, None)) ->
  mixedbuffer.IsEmpty (outboundBuffer (self s)) = false ->
  write E s buf
  = (mkWorld (with_outbound (self s)
                (mixedbuffer.Write (outboundBuffer (self s)) (enc buf)))
             (interest s)
             (trace s ++ [CallEncode buf; HookPreWrite; HookAfterWrite buf]),
     None).
Proof.
  intros Henc Hne. unfold write. cbn [self emit]. rewrite Henc.
  cbn [self emit outboundBuffer]. rewrite Hne. cbn [negb]. cbn iota.
  unfold emit, bufferOut. cbn [self interest trace].
  rewrite <- !app_assoc. reflexivity.
Qed.

(** Any number of [write]s behind a backlog. *)
Lemma write_all_behind_backlog (E : Env) (enc : bytes -> bytes)
      (bufs : list bytes) : forall s : world,
  (forall c b, codec_Encode E c b = (enc b, None)) ->
  mixedbuffer.IsEmpty (outboundBuffer (self s)) = false ->
  pending (write_all E s bufs).1 = pending s ++ concat (enc <$> bufs)
  /\ (write_all E s bufs).2 = replicate (length bufs) None
  /\ interest (write_all E s bufs).1 = interest s
  /\ filter is_kernel_call (trace (write_all E s bufs).1)
     = filter is_kernel_call (trace s)
  /\ mixedbuffer.IsEmpty (outboundBuffer (self (write_all E s bufs).1)) = false.
Proof.
  induction bufs as [|buf rest IH]; intros s Henc Hne.
  - simpl. rewrite app_nil_r. auto.
  - cbn [write_all]. rewrite (write_behind_backlog E enc s buf Henc Hne).
    set (s1 := mkWorld _ _ _).
    assert (Hne1 : mixedbuffer.IsEmpty (outboundBuffer (self s1)) = false)
      by (apply Write_stays_nonempty; assumption).
    destruct (IH s1 Henc Hne1) as (Hp & He & Hi & Ht & Hn).
    destruct (write_all E s1 rest) as [s2 errs]. simpl in *.
    split; [|split; [|split; [|split]]].
    + rewrite Hp. unfold pending, s1. simpl.
      rewrite Write_contents, <- app_assoc. reflexivity.
    + rewrite He. reflexivity.
    + rewrite Hi. reflexivity.
    + rewrite Ht. unfold s1. simpl.
      rewrite filter_app. simpl. rewrite app_nil_r. reflexivity.
    + assumption.
Qed.

(** X11.  While there is a backlog, any number of [write]s are queued
    behind it in call order without a single call to the kernel or the
    poller: every one returns nil, the pending bytes grow by the encoded
    packets in order, and the interest mask stays as it is. *)
Theorem writes_queue_behind_backlog (E : Env) (enc : bytes -> bytes)
        (bufs : list bytes) (s : world) :
  (forall c b, codec_Encode E c b = (enc b, None)) ->
  mixedbuffer.IsEmpty (outboundBuffer (self s)) = false ->
  pending (write_all E s bufs).1 = pending s ++ concat (enc <$> bufs)
  /\ (write_all E s bufs).2 = replicate (length bufs) None
  /\ interest (write_all E s bufs).1 = interest s
  /\ filter is_kernel_call (trace (write_all E s bufs).1)
     = filter is_kernel_call (trace s).
Proof.
  intros Henc Hne.
  destruct (write_all_behind_backlog E enc bufs s Henc Hne)
    as (Hp & He & Hi & Ht & _).
  auto.
Qed.

Lemma writes_queue_behind_backlog_witness :
  pending (write_all env_eagain backlogged [hello; []; hello]).1
  = [Byte.x6f; Byte.x6b] ++ hello ++ hello
  /\ (write_all env_eagain backlogged [hello; []; hello]).2 = [None; None; None]
  /\ filter is_kernel_call
       (trace (write_all env_eagain backlogged [hello; []; hello]).1) = [].
Proof.
  destruct (writes_queue_behind_backlog env_eagain (fun b => b)
              [hello; []; hello] backlogged)
    as (Hp & He & _ & Ht); [reflexivity | reflexivity |].
  split; [rewrite Hp; reflexivity|].
  split; [exact He | exact Ht].
Defined.

(** Tasks that find the connection not opened. *)
Lemma async_tasks_dropped (E : Env) (bufs : list bytes) (s : world) :
  opened (self s) = false ->
  run_tasks E s (AsyncWrite <$> bufs) = (s, replicate (length bufs) None).
Proof.
  intros Hclosed. induction bufs as [|buf rest IH]; [reflexivity|].
  cbn [fmap list_fmap run_tasks run_task AsyncWrite].
  unfold asyncWrite. rewrite Hclosed. cbn [negb].
  change (list_fmap bytes task AsyncWrite rest) with (AsyncWrite <$> rest).
  rewrite IH. reflexivity.
Qed.

(** X12.  Once the task submitted by [Close] has run, the tasks of every
    later [AsyncWrite] are dropped: each returns nil and the connection,
    the interest mask and the trace stay as the close left them, whatever
    the connection was before. *)
Theorem async_writes_after_close_are_dropped
        (E : Env) (s : world) (bufs : list bytes) :
  run_tasks E s (Close :: (AsyncWrite <$> bufs))
  = ((run_task E s Close).1,
     (run_task E s Close).2 :: replicate (length bufs) None)
  /\ opened (self (run_task E s Close).1) = false.
Proof.
  assert (Hclosed : opened (self (run_task E s Close).1) = false).
  { unfold run_task, Close, loopCloseConn. cbn [self emit].
    destruct (opened (self s)) eqn:Hop; simpl; [reflexivity | assumption]. }
  split; [|assumption].
  cbn [run_tasks].
  destruct (run_task E s Close) as [s1 e1]. cbn [fst snd] in *.
  rewrite (async_tasks_dropped E bufs s1 Hclosed). reflexivity.
Qed.

(** [open] writes no field of the connection but the outbound buffer. *)
Lemma open_frame (E : Env) (s : world) (buf : bytes) :
  self (open E s buf).1
  = with_outbound (self s) (outboundBuffer (self (open E s buf).1)).
Proof.
  assert (Hsame : forall c : conn, c = with_outbound c (outboundBuffer c))
    by (intros []; reflexivity).
  unfold open. cbn [self emit].
  destruct (unix_Write E (fd (self s)) buf) as [n|err];
    [destruct (n <? length buf)%nat | destruct (decide (err = EAGAIN))];
    unfold_steps; solve [reflexivity | apply Hsame].
Qed.

(** X13.  A connection that went through [releaseTCP] gives nothing away:
    [BufferLength] is 0, [Read] and [ReadN] return no bytes and change
    nothing, no outbound bytes are left, the addresses and the user
    context are cleared and the opened flag is down, so an [asyncWrite]
    task is dropped.  The file descriptor number and the transit buffer
    are the two fields it leaves as they were. *)
Theorem releaseTCP_leaves_nothing (E : Env) (c : conn) (n : Z) (buf : bytes)
        (m : option Interest) (tr : list event) :
  let c' := releaseTCP c in
  BufferLength c' = 0
  /\ Read c' = (c', [])
  /\ ReadN c' n = (c', (0, []))
  /\ mixedbuffer.contents (outboundBuffer c') = []
  /\ mixedbuffer.IsEmpty (outboundBuffer c') = true
  /\ Context c' = None /\ LocalAddr c' = None /\ RemoteAddr c' = None
  /\ asyncWrite E (mkWorld c' m tr) buf = (mkWorld c' m tr, None)
  /\ fd c' = fd c
  /\ transitBuffer c' = transitBuffer c.
Proof.
  intros c'.
  assert (Hread : Read c' = (c', [])) by reflexivity.
  split; [reflexivity|]. split; [assumption|].
  split.
  { unfold ReadN. change (Length (inboundBuffer c')) with 0.
    replace ((0 <=? n) || (n <=? 0)) with true
      by (symmetry; apply orb_true_iff; lia).
    rewrite Hread. reflexivity. }
  repeat split.
Qed.

(** X14.  The user context set with [SetContext] is what [Context]
    returns, and it stays through reads, shifts, resets, [open] and
    [write]; only a close takes it away (a [write] that does not leave the
    connection closed keeps it), and [SetContext] itself changes no other
    field. *)
Theorem context_is_kept (E : Env) (c : conn) (x : option Z) (n : Z)
        (m : option Interest) (tr : list event) (buf : bytes) :
  let c' := SetContext c x in
  let s := mkWorld c' m tr in
  Context c' = x
  /\ SetContext c' (ctx c) = c
  /\ Context (Read c').1 = x
  /\ Context (ReadN c' n).1 = x
  /\ Context (ShiftN c' n).1 = x
  /\ Context (ResetBuffer c') = x
  /\ Context (self (open E s buf).1) = x
  /\ (Context (self (write E s buf).1) = x
      \/ opened (self (write E s buf).1) = false)
  /\ Context (releaseTCP c') = None.
Proof.
  intros c' s.
  split; [reflexivity|].
  split; [destruct c; reflexivity|].
  split; [destruct (Read_frame c') as [-> _]; reflexivity|].
  split; [destruct (ReadN_frame c' n) as [-> _]; reflexivity|].
  split; [unfold ShiftN; simpl; destruct (transitBuffer c); reflexivity|].
  split; [unfold ResetBuffer; simpl; destruct (transitBuffer c); reflexivity|].
  split.
  { rewrite open_frame. reflexivity. }
  split; [|reflexivity].
  write_cases E s buf packet Hemp; unfold_steps;
    try match goal with
        | |- context [poller_Mod E ?f] => destruct (poller_Mod E f)
        | |- context [negb (opened ?k)] => destruct (opened k)
        end;
    first [left; reflexivity | right; reflexivity].
Qed.

(* ------------------------------------------------------------------ *)
(** ** More on the sendmsg adapter *)

Lemma iovec_of_matches (iov : bytes) : iovec_matches iov (io.iovec_of iov).
Proof. destruct iov; simpl; auto. Qed.

Lemma iovec_lens_total (iovs : list bytes) :
  Forall (fun iov => io.fits_int (length iov)) iovs ->
  foldr Z.add 0 (io.Len <$> (io.iovec_of <$> iovs))
  = Z.of_nat (length (concat iovs)).
Proof.
  induction 1 as [|iov rest Hfit _ IH]; [reflexivity|].
  cbn [fmap list_fmap foldr concat]. rewrite length_app, Nat2Z.inj_add.
  change (list_fmap bytes io.Iovec io.iovec_of rest) with (io.iovec_of <$> rest).
  change (list_fmap io.Iovec Z io.Len (io.iovec_of <$> rest))
    with (io.Len <$> (io.iovec_of <$> rest)).
  rewrite IH. cbn [io.iovec_of io.Len].
  rewrite uint64_small by assumption. reflexivity.
Qed.

(** X15.  In the one call [SendMsgs] makes, no iovec has a nil base: an
    empty slice is passed as the address of the zero byte with length 0,
    a slice with bytes as the address of its first byte; and the lengths
    in the header add up to the number of bytes in all slices together. *)
Theorem SendMsgs_iovecs_are_well_formed
        (K : io.kernel) (fd : Z) (iovs : list bytes) :
  iovs <> [] ->
  Forall (fun iov => io.fits_int (length iov)) iovs ->
  exists call : io.syscall,
    (io.SendMsgs K fd iovs).1 = [call]
    /\ Forall2 iovec_matches iovs (io.Iov (io.a2 call))
    /\ Forall (fun v => io.Base v <> io.Nil) (io.Iov (io.a2 call))
    /\ foldr Z.add 0 (io.Len <$> io.Iov (io.a2 call))
       = Z.of_nat (length (concat iovs)).
Proof.
  intros Hne Hfits. rewrite SendMsgs_nonempty by assumption. cbv zeta.
  set (call := io.mkSyscall _ _ _ _).
  exists call.
  split; [destruct (K call) as [[r r2] errno], (errno =? 0); reflexivity|].
  cbn [call io.a2 io.Iov].
  split; [|split].
  - clear. induction iovs as [|iov rest IH]; constructor;
      [apply iovec_of_matches | exact IH].
  - clear. induction iovs as [|iov rest IH]; constructor; [|exact IH].
    unfold io.iovec_of. simpl. destruct (0 <? length iov)%nat; discriminate.
  - apply iovec_lens_total. assumption.
Qed.

Lemma SendMsgs_iovecs_are_well_formed_witness :
  exists call : io.syscall,
    (io.SendMsgs kernel_takes_all 7 three_slices).1 = [call]
    /\ Forall (fun v => io.Base v <> io.Nil) (io.Iov (io.a2 call))
    /\ foldr Z.add 0 (io.Len <$> io.Iov (io.a2 call)) = 7.
Proof.
  destruct (SendMsgs_iovecs_are_well_formed kernel_takes_all 7 three_slices)
    as (call & Hone & _ & Hbase & Htotal);
    [discriminate
    | repeat constructor; unfold io.fits_int; simpl; lia |].
  exists call. split; [exact Hone|]. split; [exact Hbase | exact Htotal].
Defined.

(* ------------------------------------------------------------------ *)
(** ** Back-pressure *)

(** X16.  Back-pressure from an idle connection: when the first [write]
    finds the socket buffer full (EAGAIN) for a non-empty packet and the
    poller accepts, that write and any number of further ones make one
    write syscall and one poller call between them; every byte of every
    packet is pending, in call order; all return nil; and at the end write
    interest is armed and "Write in the mask iff bytes pending" holds. *)
Theorem writes_under_backpressure (E : Env) (enc : bytes -> bytes)
        (s : world) (buf : bytes) (rest : list bytes) :
  (forall c b, codec_Encode E c b = (enc b, None)) ->
  mixedbuffer.IsEmpty (outboundBuffer (self s)) = true ->
  unix_Write E (fd (self s)) (enc buf) = Failed EAGAIN ->
  enc buf <> [] ->
  poller_Mod E (fd (self s)) = None ->
  let s' := (write_all E s (buf :: rest)).1 in
  pending s' = concat (enc <$> buf :: rest)
  /\ (write_all E s (buf :: rest)).2 = replicate (S (length rest)) None
  /\ filter is_kernel_call (trace s')
     = filter is_kernel_call (trace s)
       ++ [SysWrite (fd (self s)) (enc buf); CallModReadWrite (fd (self s))]
  /\ interest s' = Some ReadWrite
  /\ armed_iff_pending s'.
Proof.
  intros Henc Hemp Hsys Hpk Hmod s'. subst s'. cbn [write_all].
  assert (Hfirst : write E s buf
     = (mkWorld (with_outbound (self s)
                   (mixedbuffer.Write (outboundBuffer (self s)) (enc buf)))
                (Some ReadWrite)
                (trace s ++ [CallEncode buf; HookPreWrite;
                             SysWrite (fd (self s)) (enc buf);
                             CallModReadWrite (fd (self s));
                             HookAfterWrite buf]),
        None)).
  { unfold write. cbn [self emit]. rewrite Henc.
    cbn [self emit outboundBuffer]. rewrite Hemp. cbn [negb]. cbn iota.
    rewrite Hsys. rewrite decide_True by reflexivity.
    unfold_steps. rewrite Hmod. unfold emit. cbn [self interest trace].
    rewrite <- !app_assoc. reflexivity. }
  rewrite Hfirst. set (s1 := mkWorld _ _ _).
  assert (Hne1 : mixedbuffer.IsEmpty (outboundBuffer (self s1)) = false)
    by (apply Write_nonempty; assumption).
  destruct (write_all_behind_backlog E enc rest s1 Henc Hne1)
    as (Hp & He & Hi & Ht & Hn).
  destruct (write_all E s1 rest) as [s2 errs]. simpl in *.
  split; [|split; [|split; [|split]]].
  - rewrite Hp. unfold pending, s1. simpl.
    rewrite Write_contents, (IsEmpty_contents _ Hemp). reflexivity.
  - rewrite He. reflexivity.
  - rewrite Ht. unfold s1. simpl. rewrite filter_app. reflexivity.
  - rewrite Hi. reflexivity.
  - unfold armed_iff_pending. rewrite Hi, Hn. reflexivity.
Qed.

Lemma writes_under_backpressure_witness :
  let s' := (write_all env_eagain idle [hello; [Byte.x21]; hello]).1 in
  pending s' = hello ++ [Byte.x21] ++ hello
  /\ filter is_kernel_call (trace s') = [SysWrite 7 hello; CallModReadWrite 7]
  /\ armed_iff_pending s'.
Proof.
  destruct (writes_under_backpressure env_eagain (fun b => b) idle hello
              [[Byte.x21]; hello])
    as (Hp & _ & Ht & _ & Hinv);
    [reflexivity | reflexivity | reflexivity | discriminate | reflexivity |].
  split; [rewrite Hp; reflexivity|]. split; [exact Ht | exact Hinv].
Defined.
